(** * De Bruijn graph assembly ([debruijn/debruijn.py]): a shallow embedding

    The program cuts reads into k-mers, builds a weighted directed graph
    with networkx, simplifies it (bubbles, entry tips, out tips) and reads
    contigs off the remaining simple paths.

    Conventions of the embedding.
    - A Python [str] is a [string]; a Python [int] is a [Z]; the mean of a
      list of integer weights is kept as an exact rational ([Q], reduced),
      which is what [statistics.mean] computes before it converts the
      result to an [int] or a [float]. Two means are compared as these
      rationals: the rounding of the conversion is not modelled.
    - A Python exception is a constructor of [exn]; a computation that may
      raise returns a [result].
    - The networkx [DiGraph] is a record of its nodes and of its weighted
      edges, both in insertion order: the iteration orders of [G.nodes],
      [G.successors(n)] and [G.predecessors(n)] are the insertion orders
      of the underlying dictionaries, and all three are recovered from the
      two lists.
    - The graph object is mutated in place by the program; a procedure on
      the graph returns an [outcome] that carries the state of that object
      both when the call returns and when it raises. *)

From Stdlib Require Import List String Ascii ZArith QArith Qreduction Bool Lia Lqa.
Import ListNotations.
Open Scope string_scope.
Open Scope list_scope.
Open Scope Z_scope.

(** ** Exceptions and results *)

Inductive exn : Type :=
| StatisticsError      (* statistics.mean / statistics.stdev on too few data *)
| ValueError           (* list.index of an absent value *)
| IndexError           (* subscript or del out of range *)
| UnboundLocalError    (* a local read before any assignment *)
| NodeNotFound         (* networkx: a node argument is not in the graph *)
| NetworkXError        (* networkx: LCA asked on a graph with a cycle *)
| NetworkXPointlessConcept  (* networkx: LCA asked on the null graph *)
| RecursionError.      (* the recursion depth allowed to a call is spent *)

Inductive result (A : Type) : Type :=
| Ok (a : A)
| Raise (e : exn).
Arguments Ok {A} a.
Arguments Raise {A} e.

Definition bind {A B : Type} (r : result A) (k : A -> result B) : result B :=
  match r with
  | Ok a => k a
  | Raise e => Raise e
  end.

Notation "x <- e ;; k" := (bind e (fun x => k))
  (at level 61, e at next level, right associativity).

(** ** Python built-ins used by the program *)

Module Py.

(** [PySlice_AdjustIndices] for a step of 1: a negative index counts from
    the end, and both ends are clamped to [0, len]. *)
Definition clamp (len i : Z) : Z :=
  if i <? 0 then Z.max 0 (i + len) else Z.min i len.

Definition slice_bounds (len : Z) (start stop : option Z) : Z * Z :=
  (match start with None => 0 | Some i => clamp len i end,
   match stop with None => len | Some i => clamp len i end).

(** [s[start:stop]] on a [str]. *)
Definition str_slice (s : string) (start stop : option Z) : string :=
  let '(lo, hi) := slice_bounds (Z.of_nat (String.length s)) start stop in
  substring (Z.to_nat lo) (Z.to_nat (hi - lo)) s.

(** [l[start:stop]] on a [list]. *)
Definition list_slice {A : Type} (l : list A) (start stop : option Z) : list A :=
  let '(lo, hi) := slice_bounds (Z.of_nat (List.length l)) start stop in
  firstn (Z.to_nat (hi - lo)) (skipn (Z.to_nat lo) l).

(** [s[-1]] on a [str]: the last character, [IndexError] when [s] is empty. *)
Fixpoint str_last (s : string) : result ascii :=
  match s with
  | EmptyString => Raise IndexError
  | String c EmptyString => Ok c
  | String _ s' => str_last s'
  end.

(** [enumerate(s)] keeps the indices only: [0, 1, ..., len(s) - 1]. *)
Definition indices (s : string) : list Z :=
  map Z.of_nat (seq 0 (String.length s)).

(** [max(l)]: the first of the greatest elements ([item > best] replaces). *)
Fixpoint max_from {A : Type} (gtb : A -> A -> bool) (best : A) (l : list A) : A :=
  match l with
  | [] => best
  | x :: l' => max_from gtb (if gtb x best then x else best) l'
  end.

Definition max {A : Type} (gtb : A -> A -> bool) (l : list A) : result A :=
  match l with
  | [] => Raise ValueError
  | x :: l' => Ok (max_from gtb x l')
  end.

(** [l.index(x)]: the first position holding a value equal to [x]. *)
Fixpoint index {A : Type} (eqb : A -> A -> bool) (x : A) (l : list A) : result nat :=
  match l with
  | [] => Raise ValueError
  | y :: l' => if eqb y x then Ok O else i <- index eqb x l' ;; Ok (S i)
  end.

(** [del l[i]] for [i >= 0]: the list without its [i]-th element. *)
Fixpoint del {A : Type} (l : list A) (i : nat) : result (list A) :=
  match l, i with
  | [], _ => Raise IndexError
  | _ :: l', O => Ok l'
  | x :: l', S i' => r <- del l' i' ;; Ok (x :: r)
  end.

Definition Qgtb (a b : Q) : bool := negb (Qle_bool a b).

Definition Qsum (l : list Q) : Q := fold_right Qplus (0#1)%Q l.

(** [statistics.mean] on integers: the exact quotient. *)
Definition mean (data : list Z) : result Q :=
  match data with
  | [] => Raise StatisticsError
  | _ => Ok (Qred (Qmake (fold_right Z.add 0 data) (Pos.of_nat (List.length data))))
  end.

(** The sample variance [statistics.variance] computes exactly:
    [sum (x - m)^2 / (n - 1)] with [m] the mean. *)
Definition Qmean (data : list Q) : Q :=
  (Qsum data / inject_Z (Z.of_nat (List.length data)))%Q.

Definition sum_sq_dev (m : Q) (data : list Q) : Q :=
  Qsum (map (fun x => ((x - m) * (x - m))%Q) data).

Definition variance (data : list Q) : Q :=
  (sum_sq_dev (Qmean data) data / inject_Z (Z.of_nat (List.length data) - 1))%Q.

(** [statistics.stdev(data) > 0]. The standard deviation is the square
    root of the sample variance, so the test holds exactly when the
    variance is positive; fewer than two data raise. *)
Definition stdev_gt_0 (data : list Q) : result bool :=
  if (List.length data <? 2)%nat then Raise StatisticsError
  else Ok (Qgtb (variance data) (0#1)%Q).

End Py.

(** ** The k-mer extractor *)

(** [cut_kmer(read, kmer_size)]. The generator is modelled by the list of
    the values it yields, in order. *)
Definition cut_kmer (read : string) (kmer_size : Z) : list string :=
  let window := Py.str_slice read None
                  (Some (Z.of_nat (String.length read) - kmer_size + 1)) in
  map (fun r => Py.str_slice read (Some r) (Some (r + kmer_size)))
      (Py.indices window).

(** ** The networkx [DiGraph] and the graph primitives the program calls

    The primitives follow networkx 3.x. Where networkx leaves a choice to
    the iteration order of a Python [set] (the common ancestor the LCA
    search starts from), the model takes the choice as a parameter. *)

Module Nx.

Definition edge : Type := string * string * Z.
Definition src (e : edge) : string := fst (fst e).
Definition dst (e : edge) : string := snd (fst e).
Definition weight (e : edge) : Z := snd e.

Record DiGraph : Type := mkDiGraph {
  nodes : list string;     (* G.nodes, in insertion order *)
  edges : list edge        (* (u, v, weight), in insertion order *)
}.

Definition empty : DiGraph := mkDiGraph [] [].

Definition mem (n : string) (l : list string) : bool :=
  existsb (String.eqb n) l.

Definition has_node (g : DiGraph) (n : string) : bool := mem n (nodes g).

Definition has_edge (g : DiGraph) (u v : string) : bool :=
  existsb (fun e => String.eqb (src e) u && String.eqb (dst e) v) (edges g).

Definition add_node (g : DiGraph) (n : string) : DiGraph :=
  if has_node g n then g else mkDiGraph (nodes g ++ [n]) (edges g).

(** [G.add_edge(u, v, weight=w)]: [u] then [v] become nodes when they are
    not yet; an existing edge keeps its place and takes the new weight. *)
Definition add_edge (g : DiGraph) (u v : string) (w : Z) : DiGraph :=
  let g' := add_node (add_node g u) v in
  if has_edge g' u v
  then mkDiGraph (nodes g')
         (map (fun e => if String.eqb (src e) u && String.eqb (dst e) v
                        then (u, v, w) else e) (edges g'))
  else mkDiGraph (nodes g') (edges g' ++ [(u, v, w)]).

(** [G.remove_node(n)] without the error on an absent node, which
    [remove_nodes_from] silences: the node and its incident edges go. *)
Definition remove_node (g : DiGraph) (n : string) : DiGraph :=
  mkDiGraph
    (filter (fun m => negb (String.eqb m n)) (nodes g))
    (filter (fun e => negb (String.eqb (src e) n) && negb (String.eqb (dst e) n))
            (edges g)).

Definition remove_nodes_from (g : DiGraph) (ns : list string) : DiGraph :=
  fold_left remove_node ns g.

Definition successors (g : DiGraph) (u : string) : list string :=
  map dst (filter (fun e => String.eqb (src e) u) (edges g)).

Definition predecessors (g : DiGraph) (v : string) : list string :=
  map src (filter (fun e => String.eqb (dst e) v) (edges g)).

(** The weights of [G.subgraph(path).edges(data=True)]: every edge of the
    graph whose two ends are both among the nodes of [path]. *)
Definition subgraph_weights (g : DiGraph) (path : list string) : list Z :=
  map weight (filter (fun e => mem (src e) path && mem (dst e) path) (edges g)).

(** A directed walk of at most [k] edges leads from [s] to [t]. *)
Fixpoint reach_within (k : nat) (g : DiGraph) (s t : string) : bool :=
  String.eqb s t ||
  match k with
  | O => false
  | S k' => existsb (fun c => reach_within k' g c t) (successors g s)
  end.

(** [t] is [s] or a descendant of [s]: a walk that reaches [t] can be cut
    down to one that repeats no node, so [len(G)] edges are enough (lemma
    [reaches_walk] below). *)
Definition reaches (g : DiGraph) (s t : string) : bool :=
  reach_within (List.length (nodes g)) g s t.

(** [nx.has_path(G, source, target)]. *)
Definition has_path (g : DiGraph) (source target : string) : result bool :=
  if has_node g source && has_node g target
  then Ok (reaches g source target)
  else Raise NodeNotFound.

(** [nx.is_directed_acyclic_graph(G)]: no node is reached again from one
    of its successors. *)
Definition is_directed_acyclic_graph (g : DiGraph) : bool :=
  forallb (fun n => negb (existsb (fun c => reaches g c n) (successors g n)))
          (nodes g).

(** The depth-first enumeration of [nx.all_simple_paths]: [visited ++ [u]]
    is the current path and the successors of [u] are tried in adjacency
    order. A successor already on the path is skipped; the target is
    yielded and not searched through; another node is searched through
    while the cutoff ([budget], [len(G) - 1] at the source) allows. *)
Fixpoint extend (budget : nat) (g : DiGraph) (target : string)
                (visited : list string) (u : string) : list (list string) :=
  match budget with
  | O => []
  | S b =>
      flat_map
        (fun c =>
           if mem c (visited ++ [u]) then []
           else if String.eqb c target then [visited ++ [u; c]]
           else extend b g target (visited ++ [u]) c)
        (successors g u)
  end.

(** [list(nx.all_simple_paths(G, source, target))] for a [target] of the
    graph (every call of the program passes one). The path of the single
    node [source] is the one simple path from [source] to itself. *)
Definition all_simple_paths (g : DiGraph) (source target : string)
  : result (list (list string)) :=
  if negb (has_node g source) then Raise NodeNotFound
  else if String.eqb source target then Ok [[source]]
  else Ok (extend (List.length (nodes g) - 1) g target [] source).

(** The nodes that are [v] or an ancestor of [v], and [w] or an ancestor
    of [w]. *)
Definition common_ancestors (g : DiGraph) (v w : string) : list string :=
  filter (fun a => reaches g a v && reaches g a w) (nodes g).

(** From a common ancestor, step to the first successor that is a common
    ancestor too, until there is none. *)
Fixpoint lowest (fuel : nat) (g : DiGraph) (common : list string) (c : string)
  : string :=
  match fuel with
  | O => c
  | S f =>
      match find (fun s => mem s common) (successors g c) with
      | Some s => lowest f g common s
      | None => c
      end
  end.

(** [nx.lowest_common_ancestor(G, v, w)], with Python's [None] as [None].
    [pick c cs] is the member of the non-empty set [c :: cs] that
    [next(iter(common_ancestors))] returns. *)
Definition lowest_common_ancestor (pick : string -> list string -> string)
    (g : DiGraph) (v w : string) : result (option string) :=
  if negb (is_directed_acyclic_graph g) then Raise NetworkXError
  else match nodes g with
       | [] => Raise NetworkXPointlessConcept
       | _ =>
           if negb (has_node g v && has_node g w) then Raise NodeNotFound
           else match common_ancestors g v w with
                | [] => Ok None
                | c :: cs =>
                    Ok (Some (lowest (List.length (nodes g)) g (c :: cs) (pick c cs)))
                end
       end.

End Nx.

Import Nx.

(** The graph object after a call: as returned, or as the exception that
    left the call found it. *)
Inductive outcome : Type :=
| Returns (g : DiGraph)
| Raises (e : exn) (g : DiGraph).

Definition graph_of (o : outcome) : DiGraph :=
  match o with
  | Returns g => g
  | Raises _ g => g
  end.

(** ** Graph construction *)

(** A Python [dict] from k-mer to count, in insertion order. *)
Definition kmer_dict : Type := list (string * Z).

(** [if kmer in d.keys(): d[kmer] += 1  else: d[kmer] = 1]. *)
Fixpoint count_kmer (d : kmer_dict) (kmer : string) : kmer_dict :=
  match d with
  | [] => [(kmer, 1)]
  | (k, c) :: d' =>
      if String.eqb k kmer then (k, c + 1) :: d' else (k, c) :: count_kmer d' kmer
  end.

(** [build_kmer_dict(fastq_file, kmer_size)], on the reads that
    [read_fastq] yields from the file. *)
Definition build_kmer_dict (reads : list string) (kmer_size : Z) : kmer_dict :=
  fold_left (fun d read => fold_left count_kmer (cut_kmer read kmer_size) d)
            reads [].

(** [build_graph(kmer_dict)]. *)
Definition build_graph (d : kmer_dict) : DiGraph :=
  fold_left
    (fun g kc => add_edge g (Py.str_slice (fst kc) None (Some (-1)))
                            (Py.str_slice (fst kc) (Some 1) None) (snd kc))
    d Nx.empty.

(** ** Path removal and the path selector *)

(** The nodes of [path] that [remove_paths] removes under the two flags. *)
Definition removed_nodes (path : list string)
    (delete_entry_node delete_sink_node : bool) : list string :=
  if delete_entry_node && delete_sink_node then path
  else if delete_entry_node then Py.list_slice path None (Some (-1))
  else if delete_sink_node then Py.list_slice path (Some 1) None
  else Py.list_slice path (Some 1) (Some (-1)).

Definition remove_paths (g : DiGraph) (path_list : list (list string))
    (delete_entry_node delete_sink_node : bool) : DiGraph :=
  fold_left
    (fun g path =>
       remove_nodes_from g (removed_nodes path delete_entry_node delete_sink_node))
    path_list g.

(** [path_average_weight(graph, path)]. *)
Definition path_average_weight (g : DiGraph) (path : list string) : result Q :=
  Py.mean (subgraph_weights g path).

(** The annotation loop shared by [solve_bubble] and the tip resolvers:
    [path_length.append(len(path))] and
    [weight_avg_list.append(path_average_weight(graph, path))]. *)
Fixpoint annotate (g : DiGraph) (paths : list (list string))
  : result (list Z * list Q) :=
  match paths with
  | [] => Ok ([], [])
  | path :: rest =>
      w <- path_average_weight g path ;;
      lw <- annotate g rest ;;
      Ok (Z.of_nat (List.length path) :: fst lw, w :: snd lw)
  end.

Section Program.

(** [randint a b] is the value of [random.randint(a, b)] drawn right after
    [random.seed(9001)]: with the generator reseeded before every draw it
    is a function of the two bounds, and lies between them. *)
Variable randint : Z -> Z -> Z.

(** The set-iteration choice of [Nx.lowest_common_ancestor]. *)
Variable pick : string -> list string -> string.

(** The [path_list] the three branches of [select_best_path] leave after
    their [del path_list[...]]. *)
Definition kept_out (path_list : list (list string)) (path_length : list Z)
    (weight_avg_list : list Q) : result (list (list string)) :=
  sw <- Py.stdev_gt_0 weight_avg_list ;;
  if sw : bool then
    m <- Py.max Py.Qgtb weight_avg_list ;;
    i <- Py.index Qeq_bool m weight_avg_list ;;
    Py.del path_list i
  else
    sl <- Py.stdev_gt_0 (map inject_Z path_length) ;;
    if sl : bool then
      m <- Py.max Z.gtb path_length ;;
      i <- Py.index Z.eqb m path_length ;;
      Py.del path_list i
    else
      i <- Py.index Qeq_bool
             (inject_Z (randint 0 (Z.of_nat (List.length path_list))))
             weight_avg_list ;;
      Py.del path_list i.

(** [select_best_path]: the graph after the call, and the caller's
    [path_list] after the call (the [del] mutates it in place). Every
    exception is raised before either object is touched. *)
Definition select_best_path (g : DiGraph) (path_list : list (list string))
    (path_length : list Z) (weight_avg_list : list Q)
    (delete_entry_node delete_sink_node : bool)
  : outcome * list (list string) :=
  match kept_out path_list path_length weight_avg_list with
  | Ok path_list' =>
      (Returns (remove_paths g path_list' delete_entry_node delete_sink_node),
       path_list')
  | Raise e => (Raises e g, path_list)
  end.

(** ** Bubbles *)

(** [solve_bubble(graph, ancestor_node, descendant_node)];
    [ancestor_node] may be Python's [None], which is no node of a graph. *)
Definition solve_bubble (g : DiGraph) (ancestor_node : option string)
    (descendant_node : string) : outcome :=
  match ancestor_node with
  | None => Raises NodeNotFound g
  | Some a =>
      match (path_list <- all_simple_paths g a descendant_node ;;
             lw <- annotate g path_list ;;
             Ok (path_list, lw)) with
      | Raise e => Raises e g
      | Ok (path_list, (path_length, weight_avg_list)) =>
          fst (select_best_path g path_list path_length weight_avg_list
                                false false)
      end
  end.

(** The locals of the scan of [simplify_bubbles]; [ancestor_node] and
    [noeud_n] are [None] while unassigned. *)
Record bubble_scan : Type := mkScan {
  bubble : bool;
  ancestor_node : option string;
  noeud_n : option string
}.

(** [for j in list_predecessors[c+1:]]: the LCA of [i] and [j] is stored;
    a found ancestor sets [bubble] and breaks out of this loop only. *)
Fixpoint scan_j (g : DiGraph) (i : string) (js : list string) (st : bubble_scan)
  : result bubble_scan :=
  match js with
  | [] => Ok st
  | j :: js' =>
      a <- lowest_common_ancestor pick g i j ;;
      match a with
      | Some _ => Ok (mkScan true a (noeud_n st))
      | None => scan_j g i js' (mkScan (bubble st) a (noeud_n st))
      end
  end.

(** [for c, i in enumerate(list_predecessors)]. *)
Fixpoint scan_i (g : DiGraph) (preds : list string) (st : bubble_scan)
  : result bubble_scan :=
  match preds with
  | [] => Ok st
  | i :: rest => st' <- scan_j g i rest st ;; scan_i g rest st'
  end.

(** [for n in graph.nodes]: a node with several predecessors is recorded
    and its pairs are tried; another node ends the scan once [bubble] is
    set. *)
Fixpoint scan_n (g : DiGraph) (ns : list string) (st : bubble_scan)
  : result bubble_scan :=
  match ns with
  | [] => Ok st
  | n :: ns' =>
      let list_predecessors := predecessors g n in
      if (1 <? List.length list_predecessors)%nat then
        st' <- scan_i g list_predecessors
                 (mkScan (bubble st) (ancestor_node st) (Some n)) ;;
        scan_n g ns' st'
      else if bubble st then Ok st
      else scan_n g ns' st
  end.

(** [simplify_bubbles(graph)]; [depth] bounds the nesting of the
    recursive calls. *)
Fixpoint simplify_bubbles (depth : nat) (g : DiGraph) : outcome :=
  match depth with
  | O => Raises RecursionError g
  | S depth' =>
      match scan_n g (nodes g) (mkScan false None None) with
      | Raise e => Raises e g
      | Ok st =>
          if bubble st then
            match noeud_n st with
            | None => Raises UnboundLocalError g
            | Some n =>
                match solve_bubble g (ancestor_node st) n with
                | Returns g' => simplify_bubbles depth' g'
                | Raises e g' => Raises e g'
                end
            end
          else Returns g
      end
  end.

(** ** Tips *)

(** The locals the scan of a tip resolver resets at every node. *)
Record tip_scan : Type := mkTips {
  path_list : list (list string);
  path_length : list Z;
  weight_avg_list : list Q;
  tips : bool
}.

Definition no_tips : tip_scan := mkTips [] [] [] false.

Definition record_path (g : DiGraph) (st : tip_scan) (path : list (list string))
  : result tip_scan :=
  match path with
  | [] => Raise IndexError                        (* path[0] *)
  | p0 :: _ =>
      w <- path_average_weight g p0 ;;
      Ok (mkTips (path_list st ++ [p0])
                 (path_length st ++ [Z.of_nat (List.length p0)])
                 (weight_avg_list st ++ [w]) true)
  end.

(** [for start in starting_nodes] at a node with several predecessors. *)
Fixpoint entry_paths (g : DiGraph) (node : string) (starting_nodes : list string)
    (st : tip_scan) : result tip_scan :=
  match starting_nodes with
  | [] => Ok st
  | start :: rest =>
      b <- has_path g start node ;;
      if b : bool then
        path <- all_simple_paths g start node ;;
        st' <- record_path g st path ;;
        entry_paths g node rest st'
      else entry_paths g node rest st
  end.

(** [for node in graph.nodes()] of [solve_entry_tips]. The result is the
    locals as the loop leaves them, [None] when the body never ran. *)
Fixpoint entry_scan (g : DiGraph) (ns : list string) (starting_nodes : list string)
    (last : option tip_scan) : result (option tip_scan) :=
  match ns with
  | [] => Ok last
  | node :: ns' =>
      st <- (if (1 <? List.length (predecessors g node))%nat
             then entry_paths g node starting_nodes no_tips
             else Ok no_tips) ;;
      if tips st then Ok (Some st)
      else entry_scan g ns' starting_nodes (Some st)
  end.

(** [solve_entry_tips(graph, starting_nodes)]. *)
Fixpoint solve_entry_tips (depth : nat) (g : DiGraph) (starting_nodes : list string)
  : outcome :=
  match depth with
  | O => Raises RecursionError g
  | S depth' =>
      match entry_scan g (nodes g) starting_nodes None with
      | Raise e => Raises e g
      | Ok None => Raises UnboundLocalError g       (* if tips: *)
      | Ok (Some st) =>
          if tips st then
            match fst (select_best_path g (path_list st) (path_length st)
                         (weight_avg_list st) true false) with
            | Returns g' => solve_entry_tips depth' g' starting_nodes
            | Raises e g' => Raises e g'
            end
          else Returns g
      end
  end.

(** [for end in ending_nodes] at a node with several successors. *)
Fixpoint out_paths (g : DiGraph) (node : string) (ending_nodes : list string)
    (st : tip_scan) : result tip_scan :=
  match ending_nodes with
  | [] => Ok st
  | end_ :: rest =>
      b <- has_path g node end_ ;;
      if b : bool then
        path <- all_simple_paths g node end_ ;;
        st' <- record_path g st path ;;
        out_paths g node rest st'
      else out_paths g node rest st
  end.

(** [for node in graph.nodes()] of [solve_out_tips]. *)
Fixpoint out_scan (g : DiGraph) (ns : list string) (ending_nodes : list string)
    (last : option tip_scan) : result (option tip_scan) :=
  match ns with
  | [] => Ok last
  | node :: ns' =>
      st <- (if (1 <? List.length (successors g node))%nat
             then out_paths g node ending_nodes no_tips
             else Ok no_tips) ;;
      if tips st then Ok (Some st)
      else out_scan g ns' ending_nodes (Some st)
  end.

(** [solve_out_tips(graph, ending_nodes)]. *)
Fixpoint solve_out_tips (depth : nat) (g : DiGraph) (ending_nodes : list string)
  : outcome :=
  match depth with
  | O => Raises RecursionError g
  | S depth' =>
      match out_scan g (nodes g) ending_nodes None with
      | Raise e => Raises e g
      | Ok None => Raises UnboundLocalError g       (* if tips: *)
      | Ok (Some st) =>
          if tips st then
            match fst (select_best_path g (path_list st) (path_length st)
                         (weight_avg_list st) false true) with
            | Returns g' => solve_out_tips depth' g' ending_nodes
            | Raises e g' => Raises e g'
            end
          else Returns g
      end
  end.

End Program.

(** ** Sources, sinks and contigs *)

Definition get_starting_nodes (g : DiGraph) : list string :=
  filter (fun n => (List.length (predecessors g n) =? 0)%nat) (nodes g).

Definition get_sink_nodes (g : DiGraph) : list string :=
  filter (fun n => (List.length (successors g n) =? 0)%nat) (nodes g).

(** [seq += path[0]] then [seq += kmer[-1]] for every [kmer] of
    [path[1:]]: the value of [seq] after one path, from its value
    before. *)
Definition extend_seq (seq : string) (path : list string) : result string :=
  match path with
  | [] => Raise IndexError
  | p0 :: _ =>
      fold_left
        (fun acc kmer =>
           s <- acc ;; c <- Py.str_last kmer ;; Ok (s ++ String c "")%string)
        (Py.list_slice path (Some 1) None)
        (Ok (seq ++ p0)%string)
  end.

(** [for path in nx.all_simple_paths(graph, start, end)]: [seq] is carried
    from one path to the next. *)
Fixpoint contigs_of_paths (seq : string) (paths : list (list string))
    (contigs : list (string * Z)) : result (list (string * Z)) :=
  match paths with
  | [] => Ok contigs
  | path :: rest =>
      seq' <- extend_seq seq path ;;
      contigs_of_paths seq' rest
        (contigs ++ [(seq', Z.of_nat (String.length seq'))])
  end.

(** [for end in ending_nodes]; [seq = ""] is set once per connected pair. *)
Fixpoint contigs_of_ends (g : DiGraph) (start : string) (ending_nodes : list string)
    (contigs : list (string * Z)) : result (list (string * Z)) :=
  match ending_nodes with
  | [] => Ok contigs
  | end_ :: rest =>
      b <- has_path g start end_ ;;
      if b : bool then
        paths <- all_simple_paths g start end_ ;;
        contigs' <- contigs_of_paths "" paths contigs ;;
        contigs_of_ends g start rest contigs'
      else contigs_of_ends g start rest contigs
  end.

(** [for start in starting_nodes]. *)
Fixpoint contigs_of_starts (g : DiGraph) (starting_nodes ending_nodes : list string)
    (contigs : list (string * Z)) : result (list (string * Z)) :=
  match starting_nodes with
  | [] => Ok contigs
  | start :: rest =>
      contigs' <- contigs_of_ends g start ending_nodes contigs ;;
      contigs_of_starts g rest ending_nodes contigs'
  end.

(** [get_contigs(graph, starting_nodes, ending_nodes)]. *)
Definition get_contigs (g : DiGraph) (starting_nodes ending_nodes : list string)
  : result (list (string * Z)) :=
  contigs_of_starts g starting_nodes ending_nodes [].

(** ** Reading the reads, and the whole run *)

Definition newline : ascii := "010"%char.

(** [s.lstrip("\n")] and [s.rstrip("\n")]. *)
Fixpoint lstrip_newlines (s : string) : string :=
  match s with
  | String c s' => if Ascii.eqb c newline then lstrip_newlines s' else s
  | EmptyString => EmptyString
  end.

Fixpoint rstrip_newlines (s : string) : string :=
  match s with
  | EmptyString => EmptyString
  | String c s' =>
      match rstrip_newlines s' with
      | EmptyString => if Ascii.eqb c newline then EmptyString else String c EmptyString
      | r => String c r
      end
  end.

(** [s.strip("\n")]. *)
Definition strip_newlines (s : string) : string :=
  rstrip_newlines (lstrip_newlines s).

(** What a consumer gets from the generator [read_fastq]: the reads it
    yields, and whether it is then exhausted or raises. *)
Inductive fastq_reads : Type :=
| Exhausted (reads : list string)
| RaisesAfter (reads : list string).

Definition yield_first (read : string) (r : fastq_reads) : fastq_reads :=
  match r with
  | Exhausted reads => Exhausted (read :: reads)
  | RaisesAfter reads => RaisesAfter (read :: reads)
  end.

(** [read_fastq(fastq_file)] on the lines the open file iterates over.
    The [for] takes a line, [next(file)] takes the line that is yielded
    without its newlines, and two more [next(file)] skip two lines; a
    [next(file)] on the exhausted file raises [StopIteration] inside the
    generator, which the generator turns into a [RuntimeError]. *)
Fixpoint read_fastq (lines : list string) : fastq_reads :=
  match lines with
  | [] => Exhausted []
  | [_] => RaisesAfter []
  | [_; read] => RaisesAfter [strip_newlines read]
  | [_; read; _] => RaisesAfter [strip_newlines read]
  | _ :: read :: _ :: _ :: rest => yield_first (strip_newlines read) (read_fastq rest)
  end.

(** The steps 1 to 4 of [main] up to the call of [save_contigs], on the
    reads of the file: the contigs handed to [save_contigs], or the
    exception that ends the run. [depth] bounds the recursion of each of
    the three simplifiers. *)
Definition main (randint : Z -> Z -> Z) (pick : string -> list string -> string)
    (depth : nat) (reads : list string) (kmer_size : Z)
  : result (list (string * Z)) :=
  let kmer_dict := build_kmer_dict reads kmer_size in
  let graph := build_graph kmer_dict in
  match simplify_bubbles randint pick depth graph with
  | Raises e _ => Raise e
  | Returns graph =>
      match solve_entry_tips randint depth graph (get_starting_nodes graph) with
      | Raises e _ => Raise e
      | Returns graph =>
          match solve_out_tips randint depth graph (get_sink_nodes graph) with
          | Raises e _ => Raise e
          | Returns graph =>
              get_contigs graph (get_starting_nodes graph) (get_sink_nodes graph)
          end
      end
  end.

(** ** Notions the properties are stated with *)

(** [g'] has no node, no edge and no weight that [g] has not. *)
Definition is_subgraph (g' g : DiGraph) : Prop :=
  incl (nodes g') (nodes g) /\ incl (edges g') (edges g).

(** The representation invariant of a networkx graph: both ends of an
    edge are nodes. *)
Definition well_formed (g : DiGraph) : Prop :=
  forall e, In e (edges g) -> In (src e) (nodes g) /\ In (dst e) (nodes g).

(** The pairs [(i, j)] the two nested loops of [simplify_bubbles] range
    over: [i] before [j] in the list. *)
Fixpoint pairs (l : list string) : list (string * string) :=
  match l with
  | [] => []
  | i :: rest => map (fun j => (i, j)) rest ++ pairs rest
  end.

(** No node has two direct predecessors with a common ancestor. *)
Definition bubble_free (g : DiGraph) : bool :=
  forallb
    (fun n =>
       forallb (fun ij => match common_ancestors g (fst ij) (snd ij) with
                          | [] => true
                          | _ => false
                          end)
               (pairs (predecessors g n)))
    (nodes g).

(** The nodes [remove_paths] removes over a whole list of paths. *)
Definition removed_by (path_list : list (list string))
    (delete_entry_node delete_sink_node : bool) : list string :=
  flat_map (fun p => removed_nodes p delete_entry_node delete_sink_node) path_list.

(** The graph without the nodes of [r] and without their incident edges. *)
Definition without (g : DiGraph) (r : list string) : DiGraph :=
  mkDiGraph
    (filter (fun n => negb (mem n r)) (nodes g))
    (filter (fun e => negb (mem (src e) r) && negb (mem (dst e) r)) (edges g)).

(** The weights of the edges that join the consecutive nodes of [path]:
    the mean edge weight of a path as the specification words it. *)
Fixpoint consecutive_weights (g : DiGraph) (path : list string) : list Z :=
  match path with
  | u :: ((v :: _) as rest) =>
      map weight
          (filter (fun e => String.eqb (src e) u && String.eqb (dst e) v) (edges g))
      ++ consecutive_weights g rest
  | _ => []
  end.

(** The edge [build_graph] adds for an entry of the dictionary: from the
    k-mer without its last character to the k-mer without its first. *)
Definition kmer_edge (kc : string * Z) : edge :=
  (Py.str_slice (fst kc) None (Some (-1)), Py.str_slice (fst kc) (Some 1) None,
   snd kc).

Definition endpoints (e : edge) : string * string := (src e, dst e).

(** [d[kmer]], with 0 for an absent key. *)
Fixpoint dict_get (d : kmer_dict) (kmer : string) : Z :=
  match d with
  | [] => 0
  | (k, c) :: d' => if String.eqb k kmer then c else dict_get d' kmer
  end.

(** Every k-mer [cut_kmer] yields over all the reads, with repetitions. *)
Definition all_kmers (reads : list string) (kmer_size : Z) : list string :=
  flat_map (fun read => cut_kmer read kmer_size) reads.

(** Position [i] of [l] holds a greatest element, and no earlier position
    holds one as great. *)
Definition first_greatest {A : Type} (le : A -> A -> Prop) (l : list A) (i : nat)
  : Prop :=
  exists y, nth_error l i = Some y
            /\ forall j z, nth_error l j = Some z ->
                           le z y /\ ((j < i)%nat -> ~ le y z).

(** No node with several direct predecessors is reached from a node of
    [starting_nodes]. *)
Definition entry_tip_free (g : DiGraph) (starting_nodes : list string) : bool :=
  forallb
    (fun n =>
       negb (1 <? List.length (predecessors g n))%nat
       || forallb (fun start => negb (reaches g start n)) starting_nodes)
    (nodes g).

(** No node with several direct successors reaches a node of
    [ending_nodes]. *)
Definition out_tip_free (g : DiGraph) (ending_nodes : list string) : bool :=
  forallb
    (fun n =>
       negb (1 <? List.length (successors g n))%nat
       || forallb (fun end_ => negb (reaches g n end_)) ending_nodes)
    (nodes g).

(** The scan of a tip resolver has recorded one weight per path. *)
Definition aligned (st : tip_scan) : Prop :=
  List.length (weight_avg_list st) = List.length (path_list st).

(** A directed walk leads from the first node to the second. *)
Inductive walk (g : DiGraph) : string -> string -> Prop :=
| walk_here (n : string) : walk g n n
| walk_step (u v t : string) :
    In v (successors g u) -> walk g v t -> walk g u t.

(** Each node of [l] but the last has the next one as a successor. *)
Fixpoint is_path (g : DiGraph) (l : list string) : Prop :=
  match l with
  | u :: ((v :: _) as rest) => In v (successors g u) /\ is_path g rest
  | _ => True
  end.

(** [l] is a simple path from [s] to [t]: it starts at [s], ends at [t],
    follows edges and repeats no node. *)
Definition simple_path (g : DiGraph) (s t : string) (l : list string) : Prop :=
  hd_error l = Some s /\ last l s = t /\ is_path g l /\ NoDup l.

(** The sequence the program builds for one path when [seq] starts
    empty: the first node, then the last character of every later node. *)
Definition contig_of_path (path : list string) : result string :=
  extend_seq "" path.

(** The successive values of a string to which [cs] are appended in
    turn. *)
Fixpoint running_concat (seq : string) (cs : list string) : list string :=
  match cs with
  | [] => []
  | c :: cs' => (seq ++ c)%string :: running_concat (seq ++ c)%string cs'
  end.

(** The edges of weight 1 that join each node of [vs] to the next. *)
Fixpoint chain (vs : list string) : list edge :=
  match vs with
  | u :: ((v :: _) as rest) => (u, v, 1) :: chain rest
  | _ => []
  end.

(** The [n] windows of [w] characters of [s], from left to right. *)
Definition windows (w n : nat) (s : string) : list string :=
  map (fun r => substring r w s) (seq 0 n).

(** A pair of [get_contigs] records the length of its sequence. *)
Definition length_recorded (c : string * Z) : Prop :=
  snd c = Z.of_nat (String.length (fst c)).

(** ** Graphs the concrete statements run on *)

Definition graph_of_edges (es : list edge) : DiGraph :=
  fold_left (fun g e => add_edge g (src e) (dst e) (weight e)) es Nx.empty.

(** The set-iteration choice that takes the first common ancestor, and
    the random source whose draw is [r] whatever the bounds. *)
Definition first_pick (c : string) (cs : list string) : string := c.
Definition draw (r : Z) (a b : Z) : Z := r.

(** Three parallel paths of equal length and weight from A to B. *)
Definition tie_graph : DiGraph :=
  graph_of_edges [("A", "x1", 1); ("x1", "B", 1); ("A", "x2", 1);
                  ("x2", "B", 1); ("A", "x3", 1); ("x3", "B", 1)].

Definition tie_paths : list (list string) :=
  [["A"; "x1"; "B"]; ["A"; "x2"; "B"]; ["A"; "x3"; "B"]].

(** Two bubbles, at D and at E, over the same two branches B and C. *)
Definition twin_bubbles : DiGraph :=
  graph_of_edges [("A", "B", 1); ("A", "C", 1); ("B", "D", 10);
                  ("C", "D", 1); ("B", "E", 1); ("C", "E", 10)].

(** A bubble at D, then a node E whose two predecessors share no
    ancestor. *)
Definition bubble_then_join : DiGraph :=
  graph_of_edges [("A", "B", 1); ("A", "C", 1); ("B", "D", 1);
                  ("C", "D", 1); ("E", "Z", 1); ("X", "E", 1); ("Y", "E", 1)].

(** A path A, B, N with the chord A -> N. *)
Definition chord_graph : DiGraph :=
  graph_of_edges [("A", "B", 1); ("B", "N", 1); ("A", "N", 10)].

(** Three paths from A to n; the two through i share that node. *)
Definition shared_node_graph : DiGraph :=
  graph_of_edges [("A", "j", 1); ("j", "n", 1); ("A", "p", 10); ("p", "i", 10);
                  ("A", "q", 1); ("q", "i", 1); ("i", "n", 10)].

Definition shared_node_paths : list (list string) :=
  [["A"; "j"; "n"]; ["A"; "p"; "i"; "n"]; ["A"; "q"; "i"; "n"]].

(** A two-node cycle beside a node N with the unrelated predecessors X
    and Y. *)
Definition cycle_graph : DiGraph :=
  graph_of_edges [("P", "Q", 1); ("Q", "P", 1); ("X", "N", 1); ("Y", "N", 1)].

(** A source S that reaches N along two branches. *)
Definition diamond : DiGraph :=
  graph_of_edges [("S", "a", 1); ("S", "b", 1); ("a", "N", 1); ("b", "N", 1)].

(** A node N with the two unrelated predecessors X and Y, and no cycle. *)
Definition join_graph : DiGraph :=
  graph_of_edges [("X", "N", 1); ("Y", "N", 1)].

(** The graph of the read ACGT cut into 3-mers. *)
Definition chain_graph : DiGraph :=
  graph_of_edges [("AC", "CG", 1); ("CG", "GT", 1)].

(** Two simple paths from the source AX to the sink YZ. *)
Definition two_path_graph : DiGraph :=
  graph_of_edges [("AX", "XB", 1); ("XB", "BY", 1); ("BY", "YZ", 1);
                  ("AX", "XC", 1); ("XC", "CY", 1); ("CY", "YZ", 1)].

(** A path A, B, N of heavy edges beside the light edge A -> N. *)
Definition shortcut_graph : DiGraph :=
  graph_of_edges [("A", "B", 10); ("B", "N", 10); ("A", "N", 1)].

(** * Properties *)

(** ** The k-mer extractor *)

Lemma substring_length (n m : nat) (s : string) :
  (n + m <= String.length s)%nat -> String.length (substring n m s) = m.
Proof.
  revert n m. induction s as [|c s IH]; intros n m H; simpl in H.
  - assert (n = 0%nat) by lia. assert (m = 0%nat) by lia. subst. reflexivity.
  - destruct n as [|n]; destruct m as [|m]; simpl; try reflexivity.
    + rewrite IH by lia. reflexivity.
    + rewrite IH by (simpl; lia). reflexivity.
    + apply IH. lia.
Qed.

Lemma substring_length_short (n m : nat) (s : string) :
  (n <= String.length s)%nat -> (String.length s <= n + m)%nat ->
  String.length (substring n m s) = (String.length s - n)%nat.
Proof.
  revert n m. induction s as [|c s IH]; intros n m Hn Hm; simpl in *.
  - destruct n, m; reflexivity.
  - destruct n as [|n]; destruct m as [|m]; simpl; try lia.
    + rewrite IH by lia. lia.
    + apply IH; lia.
    + apply IH; lia.
Qed.

Lemma indices_length (s : string) :
  List.length (Py.indices s) = String.length s.
Proof. unfold Py.indices. rewrite length_map, length_seq. reflexivity. Qed.

Lemma indices_range (s : string) (r : Z) :
  In r (Py.indices s) -> 0 <= r < Z.of_nat (String.length s).
Proof.
  unfold Py.indices. rewrite in_map_iff. intros [n [<- Hn]].
  apply in_seq in Hn. lia.
Qed.

(** Within the read, [cut_kmer] is the sliding window of the
    specification: [len - k + 1] substrings, each of length [k]. *)
Lemma cut_kmer_in_range (read : string) (k : Z) :
  0 < k <= Z.of_nat (String.length read) + 1 ->
  List.length (cut_kmer read k) = Z.to_nat (Z.of_nat (String.length read) - k + 1)
  /\ Forall (fun kmer => Z.of_nat (String.length kmer) = k) (cut_kmer read k).
Proof.
  intros Hk. set (len := Z.of_nat (String.length read)) in *.
  assert (Hwin : String.length
            (Py.str_slice read None (Some (len - k + 1))) = Z.to_nat (len - k + 1)).
  { unfold Py.str_slice, Py.slice_bounds, Py.clamp. fold len.
    destruct (len - k + 1 <? 0) eqn:E; [apply Z.ltb_lt in E; lia|].
    rewrite Z.min_l by lia. rewrite Z.sub_0_r. simpl Z.to_nat at 1.
    apply substring_length. unfold len. lia. }
  split.
  - unfold cut_kmer. fold len. rewrite length_map, indices_length. exact Hwin.
  - unfold cut_kmer. fold len. apply Forall_forall. intros kmer Hin.
    apply in_map_iff in Hin. destruct Hin as [r [<- Hr]].
    apply indices_range in Hr. rewrite Hwin in Hr.
    unfold Py.str_slice, Py.slice_bounds, Py.clamp. fold len.
    destruct (r <? 0) eqn:E1; [apply Z.ltb_lt in E1; lia|].
    destruct (r + k <? 0) eqn:E2; [apply Z.ltb_lt in E2; lia|].
    rewrite !Z.min_l by lia.
    rewrite substring_length; unfold len in *; lia.
Qed.

(** Past the read, the window [read[:len - k + 1]] has a negative end,
    which Python counts from the right: the window is not empty as long
    as [k <= 2 * len], and the substrings cut from it are shorter than
    [k]. *)
Lemma cut_kmer_past_read (read : string) (k : Z) :
  Z.of_nat (String.length read) + 1 < k ->
  List.length (cut_kmer read k)
  = Z.to_nat (2 * Z.of_nat (String.length read) - k + 1)
  /\ Forall (fun kmer => Z.of_nat (String.length kmer) < k) (cut_kmer read k).
Proof.
  intros Hk. set (len := Z.of_nat (String.length read)) in *.
  assert (Hwin : String.length
            (Py.str_slice read None (Some (len - k + 1))) = Z.to_nat (2 * len - k + 1)).
  { unfold Py.str_slice, Py.slice_bounds, Py.clamp. fold len.
    destruct (len - k + 1 <? 0) eqn:E; [|apply Z.ltb_ge in E; lia].
    rewrite Z.sub_0_r. simpl Z.to_nat at 1.
    rewrite substring_length; unfold len; lia. }
  split.
  - unfold cut_kmer. fold len. rewrite length_map, indices_length. exact Hwin.
  - unfold cut_kmer. fold len. apply Forall_forall. intros kmer Hin.
    apply in_map_iff in Hin. destruct Hin as [r [<- Hr]].
    apply indices_range in Hr. rewrite Hwin in Hr.
    unfold Py.str_slice, Py.slice_bounds, Py.clamp. fold len.
    destruct (r <? 0) eqn:E1; [apply Z.ltb_lt in E1; lia|].
    destruct (r + k <? 0) eqn:E2; [apply Z.ltb_lt in E2; lia|].
    rewrite (Z.min_l r) by lia. rewrite (Z.min_r (r + k)) by lia.
    rewrite substring_length_short; unfold len in *; lia.
Qed.

(** C3: for the read "ABCDE" and k = 8, which exceeds the length of the
    read, [cut_kmer] yields three strings rather than none, and none of
    them has length 8. *)
Theorem cut_kmer_longer_than_read :
  cut_kmer "ABCDE" 8 = ["ABCDE"; "BCDE"; "CDE"].
Proof. reflexivity. Qed.

(** ** Graph construction *)

Lemma substring_all (s : string) : substring 0 (String.length s) s = s.
Proof. induction s as [|c s IH]; simpl; [reflexivity | now rewrite IH]. Qed.

Lemma suffix_cons (c : ascii) (s : string) :
  Py.str_slice (String c s) (Some 1) None = s.
Proof.
  unfold Py.str_slice, Py.slice_bounds, Py.clamp.
  change (1 <? 0) with false. cbv iota.
  rewrite Z.min_l by (simpl String.length; lia).
  change (Z.to_nat 1) with 1%nat.
  replace (Z.to_nat (Z.of_nat (String.length (String c s)) - 1))
    with (String.length s) by (simpl String.length; lia).
  simpl. apply substring_all.
Qed.

Lemma prefix_cons (c c' : ascii) (s : string) :
  exists t, Py.str_slice (String c (String c' s)) None (Some (-1)) = String c t.
Proof.
  unfold Py.str_slice, Py.slice_bounds, Py.clamp.
  change (-1 <? 0) with true. cbv iota.
  rewrite Z.max_r by (simpl String.length; lia).
  replace (Z.to_nat (-1 + Z.of_nat (String.length (String c (String c' s))) - 0))
    with (S (String.length s)) by (simpl String.length; lia).
  simpl. eexists. reflexivity.
Qed.

(** A k-mer of at least two characters is determined by the two ends of
    its edge. *)
Lemma kmer_edge_injective (kc kc' : string * Z) :
  (2 <= String.length (fst kc))%nat -> (2 <= String.length (fst kc'))%nat ->
  endpoints (kmer_edge kc) = endpoints (kmer_edge kc') -> fst kc = fst kc'.
Proof.
  destruct kc as [k c], kc' as [k' c']. unfold endpoints, kmer_edge, src, dst. simpl.
  destruct k as [|a [|b k]]; simpl; try lia.
  destruct k' as [|a' [|b' k']]; simpl; try lia.
  intros _ _ H. injection H as Hp Hs.
  rewrite !suffix_cons in Hs.
  destruct (prefix_cons a b k) as [t Ht], (prefix_cons a' b' k') as [t' Ht'].
  rewrite Ht, Ht' in Hp. injection Hp as -> _. now rewrite Hs.
Qed.

Lemma edges_add_node (g : DiGraph) (n : string) :
  edges (add_node g n) = edges g.
Proof. unfold add_node. destruct (has_node g n); reflexivity. Qed.

Lemma has_edge_absent (g : DiGraph) (u v : string) :
  ~ In (u, v) (map endpoints (edges g)) -> has_edge g u v = false.
Proof.
  unfold has_edge. intros H. apply not_true_is_false. intros Hex.
  apply existsb_exists in Hex. destruct Hex as [e [He Heq]].
  apply andb_true_iff in Heq. destruct Heq as [H1 H2].
  apply String.eqb_eq in H1, H2. subst. apply H.
  apply in_map_iff. exists e. split; [reflexivity | assumption].
Qed.

Lemma add_edge_new (g : DiGraph) (u v : string) (w : Z) :
  ~ In (u, v) (map endpoints (edges g)) ->
  edges (add_edge g u v w) = edges g ++ [(u, v, w)].
Proof.
  intros H. unfold add_edge.
  assert (E : edges (add_node (add_node g u) v) = edges g)
    by now rewrite !edges_add_node.
  rewrite has_edge_absent by now rewrite E.
  simpl. now rewrite E.
Qed.

Lemma kmer_edges_distinct (d : kmer_dict) :
  NoDup (map fst d) ->
  (forall kc, In kc d -> (2 <= String.length (fst kc))%nat) ->
  NoDup (map endpoints (map kmer_edge d)).
Proof.
  induction d as [|kc d IH]; intros Hnd Hlen; simpl.
  - constructor.
  - inversion Hnd as [|? ? Hnotin Hnd']; subst. constructor.
    + intros Hin. apply in_map_iff in Hin. destruct Hin as [e [He Hin]].
      apply in_map_iff in Hin. destruct Hin as [kc' [<- Hin]].
      apply Hnotin. apply in_map_iff. exists kc'. split; [|assumption].
      symmetry. apply kmer_edge_injective; auto using in_eq, in_cons.
    + apply IH; auto using in_cons.
Qed.

Lemma build_graph_edges_from (d : kmer_dict) (g : DiGraph) :
  NoDup (map endpoints (edges g ++ map kmer_edge d)) ->
  edges (fold_left
           (fun g kc => add_edge g (Py.str_slice (fst kc) None (Some (-1)))
                                   (Py.str_slice (fst kc) (Some 1) None) (snd kc))
           d g)
  = edges g ++ map kmer_edge d.
Proof.
  revert g. induction d as [|kc d IH]; intros g Hnd; simpl.
  - now rewrite app_nil_r.
  - rewrite IH.
    + rewrite add_edge_new.
      * rewrite <- app_assoc. reflexivity.
      * rewrite map_app in Hnd. simpl in Hnd.
        apply NoDup_remove_2 in Hnd. intros Hin. apply Hnd.
        apply in_or_app. left. exact Hin.
    + rewrite add_edge_new.
      * rewrite <- app_assoc. exact Hnd.
      * rewrite map_app in Hnd. simpl in Hnd.
        apply NoDup_remove_2 in Hnd. intros Hin. apply Hnd.
        apply in_or_app. left. exact Hin.
Qed.

(** C7, amended: for a dictionary whose keys are distinct strings of at
    least two characters (k >= 2), the edges of [build_graph] are, one
    per key and in order, the edge from the key's prefix to its suffix
    with the key's count as weight; no two of them join the same pair of
    nodes, and an edge whose two ends coincide is added like any other. *)
Theorem build_graph_one_edge_per_kmer (d : kmer_dict) :
  NoDup (map fst d) ->
  (forall kc, In kc d -> (2 <= String.length (fst kc))%nat) ->
  edges (build_graph d) = map kmer_edge d
  /\ NoDup (map endpoints (edges (build_graph d))).
Proof.
  intros Hnd Hlen.
  assert (E : edges (build_graph d) = map kmer_edge d).
  { unfold build_graph. rewrite build_graph_edges_from; simpl.
    - reflexivity.
    - now apply kmer_edges_distinct. }
  split; [exact E|]. rewrite E. now apply kmer_edges_distinct.
Qed.

Lemma build_graph_one_edge_per_kmer_witness :
  edges (build_graph [("ACGT", 3); ("CGTA", 1); ("AAA", 2)])
  = [("ACG", "CGT", 3); ("CGT", "GTA", 1); ("AA", "AA", 2)]
  /\ NoDup (map endpoints (edges (build_graph [("ACGT", 3); ("CGTA", 1); ("AAA", 2)]))).
Proof.
  apply (build_graph_one_edge_per_kmer [("ACGT", 3); ("CGTA", 1); ("AAA", 2)]).
  - repeat constructor; simpl; intuition discriminate.
  - intros kc [<-|[<-|[<-|[]]]]; simpl; lia.
Defined.

(** C7 as stated fails for k = 1: the two distinct 1-mers "A" and "C"
    both map to the edge from the empty string to itself, so the graph
    has one edge for two k-mers and the count of "A" is lost. *)
Lemma build_graph_1mers_collide :
  build_graph [("A", 1); ("C", 2)] = mkDiGraph [""] [("", "", 2)].
Proof. reflexivity. Qed.

Lemma dict_get_count_kmer (d : kmer_dict) (k k' : string) :
  dict_get (count_kmer d k) k'
  = dict_get d k' + (if String.eqb k k' then 1 else 0).
Proof.
  induction d as [|[a c] d IH]; simpl.
  - destruct (String.eqb k k'); reflexivity.
  - destruct (String.eqb a k) eqn:Eak; simpl.
    + apply String.eqb_eq in Eak. subst a.
      destruct (String.eqb k k'); lia.
    + destruct (String.eqb a k') eqn:Eak'.
      * apply String.eqb_eq in Eak'. subst a. rewrite String.eqb_sym, Eak. lia.
      * exact IH.
Qed.

Lemma count_kmer_keys (d : kmer_dict) (k k' : string) :
  In k' (map fst (count_kmer d k)) <-> In k' (map fst d) \/ k' = k.
Proof.
  induction d as [|[a c] d IH]; simpl.
  - intuition congruence.
  - destruct (String.eqb a k) eqn:Eak; simpl.
    + apply String.eqb_eq in Eak. subst a. intuition congruence.
    + rewrite IH. intuition congruence.
Qed.

Lemma count_kmer_NoDup (d : kmer_dict) (k : string) :
  NoDup (map fst d) -> NoDup (map fst (count_kmer d k)).
Proof.
  induction d as [|[a c] d IH]; simpl; intros Hnd.
  - repeat constructor. intros [].
  - inversion Hnd as [|? ? Hnotin Hnd']; subst.
    destruct (String.eqb a k) eqn:Eak; simpl.
    + constructor; assumption.
    + constructor; [|auto]. rewrite count_kmer_keys. intros [H| ->]; [auto|].
      rewrite String.eqb_refl in Eak. discriminate.
Qed.

Lemma count_kmers_get (kmers : list string) (d : kmer_dict) (k' : string) :
  dict_get (fold_left count_kmer kmers d) k'
  = dict_get d k' + Z.of_nat (count_occ string_dec kmers k').
Proof.
  revert d. induction kmers as [|k kmers IH]; intros d; simpl.
  - lia.
  - rewrite IH, dict_get_count_kmer.
    destruct (string_dec k k') as [->|Hne].
    + rewrite String.eqb_refl. lia.
    + apply String.eqb_neq in Hne. rewrite Hne. lia.
Qed.

Lemma count_kmers_NoDup (kmers : list string) (d : kmer_dict) :
  NoDup (map fst d) -> NoDup (map fst (fold_left count_kmer kmers d)).
Proof.
  revert d. induction kmers as [|k kmers IH]; intros d H; simpl;
    auto using count_kmer_NoDup.
Qed.

(** The dictionary [build_kmer_dict] returns has distinct keys, and the
    count of a k-mer is the number of times [cut_kmer] yields it over all
    the reads. *)
Lemma build_kmer_dict_counts (reads : list string) (kmer_size : Z) :
  NoDup (map fst (build_kmer_dict reads kmer_size))
  /\ forall kmer,
       dict_get (build_kmer_dict reads kmer_size) kmer
       = Z.of_nat (count_occ string_dec (all_kmers reads kmer_size) kmer).
Proof.
  unfold build_kmer_dict, all_kmers.
  assert (G : forall d,
             NoDup (map fst d) ->
             NoDup (map fst (fold_left
               (fun d read => fold_left count_kmer (cut_kmer read kmer_size) d)
               reads d))
             /\ forall kmer,
                  dict_get (fold_left
                    (fun d read => fold_left count_kmer (cut_kmer read kmer_size) d)
                    reads d) kmer
                  = dict_get d kmer
                    + Z.of_nat (count_occ string_dec
                        (flat_map (fun read => cut_kmer read kmer_size) reads) kmer)).
  { induction reads as [|read reads IH]; intros d Hnd; simpl.
    - split; [assumption | intros; lia].
    - destruct (IH (fold_left count_kmer (cut_kmer read kmer_size) d)) as [H1 H2].
      + now apply count_kmers_NoDup.
      + split; [exact H1|]. intros kmer.
        rewrite H2, count_kmers_get, count_occ_app. lia. }
  destruct (G []) as [H1 H2]; [constructor|].
  split; [exact H1|]. intros kmer. rewrite H2. reflexivity.
Qed.

(** ** Removing nodes *)

Lemma mem_In (n : string) (l : list string) : mem n l = true <-> In n l.
Proof.
  unfold mem. rewrite existsb_exists. split.
  - intros [x [Hx Heq]]. apply String.eqb_eq in Heq. now subst.
  - intros H. exists n. split; [assumption | apply String.eqb_refl].
Qed.

Lemma mem_app (n : string) (l1 l2 : list string) :
  mem n (l1 ++ l2) = mem n l1 || mem n l2.
Proof. unfold mem. apply existsb_app. Qed.

Lemma filter_twice {A : Type} (f h : A -> bool) (l : list A) :
  filter h (filter f l) = filter (fun x => f x && h x) l.
Proof.
  induction l as [|x l IH]; simpl; [reflexivity|].
  destruct (f x); simpl; [destruct (h x)|]; now rewrite IH.
Qed.

Lemma without_without (g : DiGraph) (r1 r2 : list string) :
  without (without g r1) r2 = without g (r1 ++ r2).
Proof.
  unfold without. simpl. rewrite !filter_twice. f_equal.
  - apply filter_ext. intros n. now rewrite mem_app, negb_orb.
  - apply filter_ext. intros e. rewrite !mem_app, !negb_orb.
    destruct (mem (src e) r1), (mem (dst e) r1), (mem (src e) r2); reflexivity.
Qed.

Lemma without_nil (g : DiGraph) : without g [] = g.
Proof.
  destruct g as [ns es]. unfold without. simpl. f_equal.
  - induction ns; simpl; congruence.
  - induction es; simpl; congruence.
Qed.

Lemma remove_node_without (g : DiGraph) (n : string) :
  remove_node g n = without g [n].
Proof.
  unfold remove_node, without. f_equal; apply filter_ext; intros x; simpl;
    now rewrite ?orb_false_r.
Qed.

Lemma remove_nodes_from_without (ns : list string) (g : DiGraph) :
  remove_nodes_from g ns = without g ns.
Proof.
  unfold remove_nodes_from. revert g.
  induction ns as [|n ns IH]; intros g; simpl.
  - now rewrite without_nil.
  - rewrite IH, remove_node_without, without_without. reflexivity.
Qed.

(** [remove_paths] leaves the graph without the nodes its flags select
    on the paths, and without the edges at those nodes. *)
Lemma remove_paths_without (path_list : list (list string)) (g : DiGraph)
    (delete_entry_node delete_sink_node : bool) :
  remove_paths g path_list delete_entry_node delete_sink_node
  = without g (removed_by path_list delete_entry_node delete_sink_node).
Proof.
  unfold remove_paths, removed_by. revert g.
  induction path_list as [|p ps IH]; intros g; simpl.
  - now rewrite without_nil.
  - rewrite IH, remove_nodes_from_without, without_without. reflexivity.
Qed.

Lemma is_subgraph_refl (g : DiGraph) : is_subgraph g g.
Proof. split; apply incl_refl. Qed.

Lemma is_subgraph_trans (g1 g2 g3 : DiGraph) :
  is_subgraph g1 g2 -> is_subgraph g2 g3 -> is_subgraph g1 g3.
Proof. intros [H1 H2] [H3 H4]. split; eapply incl_tran; eassumption. Qed.

Lemma without_subgraph (g : DiGraph) (r : list string) :
  is_subgraph (without g r) g.
Proof. split; simpl; apply incl_filter. Qed.

Lemma remove_paths_subgraph (g : DiGraph) (path_list : list (list string))
    (de ds : bool) :
  is_subgraph (remove_paths g path_list de ds) g.
Proof. rewrite remove_paths_without. apply without_subgraph. Qed.

Create HintDb subgraph.
#[local] Hint Resolve is_subgraph_refl without_subgraph remove_paths_subgraph
  : subgraph.

Section Simplification.

Variable randint : Z -> Z -> Z.
Variable pick : string -> list string -> string.

Lemma select_best_path_subgraph (g : DiGraph) (path_list : list (list string))
    (path_length : list Z) (weight_avg_list : list Q) (de ds : bool) :
  is_subgraph
    (graph_of (fst (select_best_path randint g path_list path_length
                      weight_avg_list de ds))) g.
Proof.
  unfold select_best_path.
  destruct (kept_out randint path_list path_length weight_avg_list);
    simpl; auto with subgraph.
Qed.

Lemma solve_bubble_subgraph (g : DiGraph) (a : option string) (d : string) :
  is_subgraph (graph_of (solve_bubble randint g a d)) g.
Proof.
  unfold solve_bubble. destruct a as [a|]; simpl; auto with subgraph.
  destruct (all_simple_paths g a d) as [ps|e]; simpl; auto with subgraph.
  destruct (annotate g ps) as [[ls ws]|e]; simpl; auto with subgraph.
  apply select_best_path_subgraph.
Qed.

Lemma simplify_bubbles_subgraph (depth : nat) (g : DiGraph) :
  is_subgraph (graph_of (simplify_bubbles randint pick depth g)) g.
Proof.
  revert g. induction depth as [|depth IH]; intros g; simpl; auto with subgraph.
  destruct (scan_n pick g (nodes g) (mkScan false None None)) as [st|e];
    simpl; auto with subgraph.
  destruct (bubble st); simpl; auto with subgraph.
  destruct (noeud_n st) as [n|]; simpl; auto with subgraph.
  pose proof (solve_bubble_subgraph g (ancestor_node st) n) as Hs.
  destruct (solve_bubble randint g (ancestor_node st) n) as [g'|e g'];
    simpl in *; [|exact Hs].
  eapply is_subgraph_trans; [apply IH | exact Hs].
Qed.

Lemma solve_entry_tips_subgraph (depth : nat) (g : DiGraph)
    (starting_nodes : list string) :
  is_subgraph (graph_of (solve_entry_tips randint depth g starting_nodes)) g.
Proof.
  revert g. induction depth as [|depth IH]; intros g; simpl; auto with subgraph.
  destruct (entry_scan g (nodes g) starting_nodes None) as [[st|]|e];
    simpl; auto with subgraph.
  destruct (tips st); simpl; auto with subgraph.
  pose proof (select_best_path_subgraph g (path_list st) (path_length st)
                (weight_avg_list st) true false) as Hs.
  destruct (fst (select_best_path randint g (path_list st) (path_length st)
                   (weight_avg_list st) true false)) as [g'|e g'];
    simpl in *; [|exact Hs].
  eapply is_subgraph_trans; [apply IH | exact Hs].
Qed.

Lemma solve_out_tips_subgraph (depth : nat) (g : DiGraph)
    (ending_nodes : list string) :
  is_subgraph (graph_of (solve_out_tips randint depth g ending_nodes)) g.
Proof.
  revert g. induction depth as [|depth IH]; intros g; simpl; auto with subgraph.
  destruct (out_scan g (nodes g) ending_nodes None) as [[st|]|e];
    simpl; auto with subgraph.
  destruct (tips st); simpl; auto with subgraph.
  pose proof (select_best_path_subgraph g (path_list st) (path_length st)
                (weight_avg_list st) false true) as Hs.
  destruct (fst (select_best_path randint g (path_list st) (path_length st)
                   (weight_avg_list st) false true)) as [g'|e g'];
    simpl in *; [|exact Hs].
  eapply is_subgraph_trans; [apply IH | exact Hs].
Qed.

(** C8: whatever the inputs, and whether the call returns or raises, the
    graph that [remove_paths], [select_best_path], [simplify_bubbles],
    [solve_entry_tips] and [solve_out_tips] leave has only nodes of the
    input graph and only edges of the input graph, with their weights. *)
Theorem simplification_only_removes (g : DiGraph) :
  (forall path_list de ds, is_subgraph (remove_paths g path_list de ds) g)
  /\ (forall path_list path_length weight_avg_list de ds,
        is_subgraph
          (graph_of (fst (select_best_path randint g path_list path_length
                            weight_avg_list de ds))) g)
  /\ (forall depth, is_subgraph (graph_of (simplify_bubbles randint pick depth g)) g)
  /\ (forall depth starting_nodes,
        is_subgraph (graph_of (solve_entry_tips randint depth g starting_nodes)) g)
  /\ (forall depth ending_nodes,
        is_subgraph (graph_of (solve_out_tips randint depth g ending_nodes)) g).
Proof.
  repeat split; intros;
    try apply remove_paths_subgraph;
    try apply select_best_path_subgraph;
    try apply simplify_bubbles_subgraph;
    try apply solve_entry_tips_subgraph;
    try apply solve_out_tips_subgraph.
Qed.

End Simplification.

(** ** [max], [index] and [del] *)

Section FirstGreatest.

Variable A : Type.
Variables gtb eqb : A -> A -> bool.
Variable le : A -> A -> Prop.
Hypothesis le_refl : forall x, le x x.
Hypothesis le_trans : forall x y z, le x y -> le y z -> le x z.
Hypothesis le_total : forall x y, le x y \/ le y x.
Hypothesis gtb_le : forall x y, gtb x y = false <-> le x y.
Hypothesis eqb_le : forall x y, eqb x y = true <-> le x y /\ le y x.

Lemma max_from_greatest (l : list A) (b : A) :
  le b (Py.max_from gtb b l)
  /\ (forall x, In x l -> le x (Py.max_from gtb b l))
  /\ (Py.max_from gtb b l = b \/ In (Py.max_from gtb b l) l).
Proof.
  revert b. induction l as [|x l IH]; intros b; simpl.
  - repeat split; auto. intros _ [].
  - destruct (IH (if gtb x b then x else b)) as [H1 [H2 H3]].
    destruct (gtb x b) eqn:E.
    + assert (Hbx : le b x).
      { destruct (le_total b x) as [H|H]; [exact H|].
        apply gtb_le in H. congruence. }
      repeat split.
      * eauto.
      * intros y [<-|Hy]; auto.
      * destruct H3 as [->|H3]; auto.
    + apply gtb_le in E. repeat split.
      * exact H1.
      * intros y [<-|Hy]; eauto.
      * destruct H3 as [H3|H3]; auto.
Qed.

Lemma index_first (x : A) (l : list A) (i : nat) :
  Py.index eqb x l = Ok i ->
  exists y, nth_error l i = Some y /\ eqb y x = true
            /\ forall j z, (j < i)%nat -> nth_error l j = Some z -> eqb z x = false.
Proof.
  revert i. induction l as [|a l IH]; intros i; simpl; [discriminate|].
  destruct (eqb a x) eqn:E.
  - intros [= <-]. exists a. repeat split; auto. intros j z Hj. lia.
  - destruct (Py.index eqb x l) as [i'|e] eqn:Ei; simpl; [|discriminate].
    intros [= <-]. destruct (IH i' eq_refl) as [y [Hy [Hyx Hbefore]]].
    exists y. repeat split; auto.
    intros [|j] z Hj; simpl.
    + intros [= <-]. exact E.
    + apply Hbefore. lia.
Qed.

Lemma index_finds (x : A) (l : list A) :
  (exists y, In y l /\ eqb y x = true) -> exists i, Py.index eqb x l = Ok i.
Proof.
  induction l as [|a l IH]; simpl; intros [y [Hin Hy]]; [contradiction|].
  destruct (eqb a x) eqn:E; [eauto|].
  destruct Hin as [->|Hin]; [congruence|].
  destruct IH as [i Hi]; [eauto|]. rewrite Hi. simpl. eauto.
Qed.

(** On a non-empty list, [l.index(max(l))] is the first position of a
    greatest element. *)
Lemma index_max_first_greatest (l : list A) :
  l <> [] ->
  exists m i, Py.max gtb l = Ok m /\ Py.index eqb m l = Ok i
              /\ first_greatest le l i.
Proof.
  destruct l as [|b l]; [congruence|]. intros _.
  destruct (max_from_greatest l b) as [H1 [H2 H3]].
  set (m := Py.max_from gtb b l) in *.
  assert (Hall : forall x, In x (b :: l) -> le x m)
    by (intros x [<-|Hx]; auto).
  assert (Hin : In m (b :: l)) by (destruct H3 as [->|H3]; [left|right]; auto).
  destruct (index_finds m (b :: l)) as [i Hi].
  { exists m. split; [exact Hin|]. apply eqb_le. auto. }
  exists m, i. split; [reflexivity|]. split; [exact Hi|].
  destruct (index_first m (b :: l) i Hi) as [y [Hy [Hym Hbefore]]].
  apply eqb_le in Hym. destruct Hym as [Hym Hmy].
  exists y. split; [exact Hy|]. intros j z Hz.
  assert (Hzm : le z m) by (apply Hall; eapply nth_error_In; eauto).
  split; [eauto|]. intros Hj Hyz.
  specialize (Hbefore j z Hj Hz).
  assert (eqb z m = true) by (apply eqb_le; split; eauto).
  congruence.
Qed.

End FirstGreatest.

Lemma nth_error_del {A : Type} (l : list A) (i : nat) (y : A) :
  nth_error l i = Some y ->
  exists l', Py.del l i = Ok l' /\ S (List.length l') = List.length l.
Proof.
  revert i. induction l as [|a l IH]; intros [|i]; simpl; try discriminate.
  - intros _. eauto.
  - intros H. destruct (IH i H) as [l' [-> Hlen]]. simpl.
    eexists. split; [reflexivity|]. simpl. lia.
Qed.

Lemma first_greatest_lt {A : Type} (le : A -> A -> Prop) (l : list A) (i : nat) :
  first_greatest le l i -> (i < List.length l)%nat.
Proof.
  intros [y [Hy _]]. apply nth_error_Some. congruence.
Qed.

Lemma Qgtb_le (x y : Q) : Py.Qgtb x y = false <-> (x <= y)%Q.
Proof.
  unfold Py.Qgtb. rewrite negb_false_iff. apply Qle_bool_iff.
Qed.

Lemma Qeq_bool_le (x y : Q) : Qeq_bool x y = true <-> (x <= y)%Q /\ (y <= x)%Q.
Proof.
  rewrite Qeq_bool_iff. split.
  - intros H. rewrite H. split; apply Qle_refl.
  - intros [H1 H2]. now apply Qle_antisym.
Qed.

Lemma Zgtb_le (x y : Z) : Z.gtb x y = false <-> x <= y.
Proof. rewrite Z.gtb_ltb, Z.ltb_ge. reflexivity. Qed.

Lemma Zeqb_le (x y : Z) : Z.eqb x y = true <-> x <= y /\ y <= x.
Proof. rewrite Z.eqb_eq. lia. Qed.

Lemma Qle_total (x y : Q) : (x <= y)%Q \/ (y <= x)%Q.
Proof. destruct (Qlt_le_dec x y) as [H|H]; [left; now apply Qlt_le_weak | now right]. Qed.

Lemma stdev_defined (data : list Q) (b : bool) :
  Py.stdev_gt_0 data = Ok b -> (2 <= List.length data)%nat.
Proof.
  unfold Py.stdev_gt_0. destruct (List.length data <? 2)%nat eqn:E; [discriminate|].
  apply Nat.ltb_ge in E. auto.
Qed.

(** ** The path selector *)

Section PathSelector.

Variable randint : Z -> Z -> Z.

Lemma del_at_first_greatest {A B : Type} (le : A -> A -> Prop) (l : list A)
    (paths : list B) (i : nat) :
  List.length l = List.length paths -> first_greatest le l i ->
  exists paths', Py.del paths i = Ok paths'.
Proof.
  intros Hlen Hfg. apply first_greatest_lt in Hfg. rewrite Hlen in Hfg.
  destruct (nth_error paths i) as [p|] eqn:E.
  - destruct (nth_error_del paths i p E) as [paths' [H _]]. eauto.
  - apply nth_error_None in E. lia.
Qed.

Lemma kept_out_by_weight (path_list : list (list string)) (path_length : list Z)
    (weight_avg_list : list Q) :
  List.length weight_avg_list = List.length path_list ->
  Py.stdev_gt_0 weight_avg_list = Ok true ->
  exists i path_list',
    first_greatest Qle weight_avg_list i
    /\ Py.del path_list i = Ok path_list'
    /\ kept_out randint path_list path_length weight_avg_list = Ok path_list'.
Proof.
  intros Hlen Hsd. unfold kept_out. rewrite Hsd. simpl.
  assert (Hne : weight_avg_list <> []).
  { apply stdev_defined in Hsd. destruct weight_avg_list; simpl in *; [lia|congruence]. }
  destruct (index_max_first_greatest Q Py.Qgtb Qeq_bool Qle
              Qle_refl Qle_trans Qle_total Qgtb_le Qeq_bool_le weight_avg_list Hne)
    as [m [i [Hm [Hi Hfg]]]].
  destruct (del_at_first_greatest Qle weight_avg_list path_list i Hlen Hfg)
    as [path_list' Hdel].
  exists i, path_list'. rewrite Hm. simpl. rewrite Hi. simpl. auto.
Qed.

Lemma kept_out_by_length (path_list : list (list string)) (path_length : list Z)
    (weight_avg_list : list Q) :
  List.length path_length = List.length path_list ->
  Py.stdev_gt_0 weight_avg_list = Ok false ->
  Py.stdev_gt_0 (map inject_Z path_length) = Ok true ->
  exists i path_list',
    first_greatest Z.le path_length i
    /\ Py.del path_list i = Ok path_list'
    /\ kept_out randint path_list path_length weight_avg_list = Ok path_list'.
Proof.
  intros Hlen Hsw Hsl. unfold kept_out. rewrite Hsw. simpl. rewrite Hsl. simpl.
  assert (Hne : path_length <> []).
  { apply stdev_defined in Hsl. rewrite length_map in Hsl.
    destruct path_length; simpl in *; [lia|congruence]. }
  destruct (index_max_first_greatest Z Z.gtb Z.eqb Z.le
              Z.le_refl Z.le_trans Z.le_ge_cases Zgtb_le Zeqb_le path_length Hne)
    as [m [i [Hm [Hi Hfg]]]].
  destruct (del_at_first_greatest Z.le path_length path_list i Hlen Hfg)
    as [path_list' Hdel].
  exists i, path_list'. rewrite Hm. simpl. rewrite Hi. simpl. auto.
Qed.

(** C4, amended: with as many weights and lengths as candidates, when the
    standard deviation of the weights is positive the first candidate of
    greatest mean weight is the one deleted from [path_list], and
    otherwise, when the standard deviation of the lengths is positive,
    the first candidate of greatest length; the call returns, and the
    graph it returns is the input graph without the nodes that the two
    flags select on every other candidate and without the edges at those
    nodes - whether or not the kept candidate runs through such a node. *)
Theorem select_best_path_keeps_first_greatest (g : DiGraph)
    (path_list : list (list string)) (path_length : list Z)
    (weight_avg_list : list Q) (de ds : bool) :
  List.length weight_avg_list = List.length path_list ->
  List.length path_length = List.length path_list ->
  (Py.stdev_gt_0 weight_avg_list = Ok true ->
   exists i path_list',
     first_greatest Qle weight_avg_list i
     /\ Py.del path_list i = Ok path_list'
     /\ select_best_path randint g path_list path_length weight_avg_list de ds
        = (Returns (without g (removed_by path_list' de ds)), path_list'))
  /\ (Py.stdev_gt_0 weight_avg_list = Ok false ->
      Py.stdev_gt_0 (map inject_Z path_length) = Ok true ->
      exists i path_list',
        first_greatest Z.le path_length i
        /\ Py.del path_list i = Ok path_list'
        /\ select_best_path randint g path_list path_length weight_avg_list de ds
           = (Returns (without g (removed_by path_list' de ds)), path_list')).
Proof.
  intros Hw Hl. split.
  - intros Hsd.
    destruct (kept_out_by_weight path_list path_length weight_avg_list Hw Hsd)
      as [i [path_list' [Hfg [Hdel Hk]]]].
    exists i, path_list'. repeat split; auto.
    unfold select_best_path. rewrite Hk, remove_paths_without. reflexivity.
  - intros Hsw Hsl.
    destruct (kept_out_by_length path_list path_length weight_avg_list Hl Hsw Hsl)
      as [i [path_list' [Hfg [Hdel Hk]]]].
    exists i, path_list'. repeat split; auto.
    unfold select_best_path. rewrite Hk, remove_paths_without. reflexivity.
Qed.

End PathSelector.

Lemma select_best_path_keeps_first_greatest_witness :
  (exists i path_list',
     first_greatest Qle [1#1; 10#1; 4#1]%Q i
     /\ Py.del shared_node_paths i = Ok path_list'
     /\ select_best_path (draw 0) shared_node_graph shared_node_paths [3; 4; 4]
          [1#1; 10#1; 4#1]%Q false false
        = (Returns (without shared_node_graph (removed_by path_list' false false)),
           path_list'))
  /\ (exists i path_list',
        first_greatest Z.le [3; 5; 3] i
        /\ Py.del tie_paths i = Ok path_list'
        /\ select_best_path (draw 0) tie_graph tie_paths [3; 5; 3]
             [4#1; 4#1; 4#1]%Q true false
           = (Returns (without tie_graph (removed_by path_list' true false)),
              path_list')).
Proof.
  split.
  - exact (proj1 (select_best_path_keeps_first_greatest (draw 0) shared_node_graph
                    shared_node_paths [3; 4; 4] [1#1; 10#1; 4#1]%Q false false
                    eq_refl eq_refl) eq_refl).
  - exact (proj2 (select_best_path_keeps_first_greatest (draw 0) tie_graph
                    tie_paths [3; 5; 3] [4#1; 4#1; 4#1]%Q true false
                    eq_refl eq_refl) eq_refl eq_refl).
Defined.

(** C4 as stated fails on the three candidates [solve_bubble] presents
    for the bubble from A to n: the candidate A, p, i, n has the strictly
    greatest mean weight, 10, and is the one kept out of the removal, yet
    its node i lies on the discarded candidate A, q, i, n and is removed
    with it. The graph returned holds neither i nor the edges p -> i and
    i -> n: the path of greatest weight has not survived. *)
Lemma select_best_path_breaks_kept_path :
  all_simple_paths shared_node_graph "A" "n" = Ok shared_node_paths
  /\ annotate shared_node_graph shared_node_paths
     = Ok ([3; 4; 4], [1#1; 10#1; 4#1]%Q)
  /\ select_best_path (draw 0) shared_node_graph shared_node_paths [3; 4; 4]
       [1#1; 10#1; 4#1]%Q false false
     = (Returns (mkDiGraph ["A"; "n"; "p"] [("A", "p", 10)]),
        [["A"; "j"; "n"]; ["A"; "q"; "i"; "n"]])
  /\ simplify_bubbles (draw 0) first_pick 5 shared_node_graph
     = Returns (mkDiGraph ["A"; "n"; "p"] [("A", "p", 10)]).
Proof. repeat split; vm_compute; reflexivity. Qed.

(** ** The tie branch *)

Lemma Qsquare_nonneg (q : Q) : (0 <= q * q)%Q.
Proof.
  destruct q as [n d]. unfold Qle, Qmult. simpl. rewrite Z.mul_1_r.
  apply Z.square_nonneg.
Qed.

Lemma sum_sq_dev_nonneg (m : Q) (data : list Q) : (0 <= Py.sum_sq_dev m data)%Q.
Proof.
  unfold Py.sum_sq_dev. induction data as [|x data IH]; simpl.
  - apply Qle_refl.
  - pose proof (Qsquare_nonneg (x - m)). lra.
Qed.

Lemma sum_sq_dev_zero (m : Q) (data : list Q) :
  (Py.sum_sq_dev m data <= 0)%Q -> forall x, In x data -> (x == m)%Q.
Proof.
  induction data as [|a data IH]; intros H x Hin; [contradiction|].
  pose proof (sum_sq_dev_nonneg m data) as Hrest.
  unfold Py.sum_sq_dev in *. simpl in H.
  pose proof (Qsquare_nonneg (a - m)) as Ha.
  destruct Hin as [<-|Hin].
  - assert (Hz : ((a - m) * (a - m) == 0)%Q) by lra.
    apply Qmult_integral in Hz. destruct Hz; lra.
  - apply IH; [lra | exact Hin].
Qed.

(** A standard deviation that is not positive: all the data are equal. *)
Lemma stdev_zero_all_equal (data : list Q) :
  Py.stdev_gt_0 data = Ok false ->
  forall x, In x data -> (x == Py.Qmean data)%Q.
Proof.
  unfold Py.stdev_gt_0.
  destruct (List.length data <? 2)%nat eqn:E; [discriminate|].
  apply Nat.ltb_ge in E. intros [= Hv]. apply Qgtb_le in Hv.
  apply sum_sq_dev_zero.
  destruct (Qlt_le_dec 0 (Py.sum_sq_dev (Py.Qmean data) data)) as [Hpos|Hle];
    [|exact Hle].
  exfalso.
  assert (Hd : (0 < inject_Z (Z.of_nat (List.length data) - 1))%Q).
  { change (0#1)%Q with (inject_Z 0). rewrite <- Zlt_Qlt. lia. }
  assert (Hvar : (0 < Py.variance data)%Q).
  { unfold Py.variance. apply Qlt_shift_div_l; [exact Hd|].
    rewrite Qmult_0_l. exact Hpos. }
  exact (Qlt_not_le _ _ Hvar Hv).
Qed.

Lemma index_absent {A : Type} (eqb : A -> A -> bool) (x : A) (l : list A) :
  (forall y, In y l -> eqb y x = false) -> Py.index eqb x l = Raise ValueError.
Proof.
  induction l as [|a l IH]; intros H; simpl; [reflexivity|].
  rewrite (H a (in_eq _ _)). rewrite IH; [reflexivity|].
  intros y Hy. apply H. now right.
Qed.

Section TieBreak.

Variable randint : Z -> Z -> Z.

(** On a full tie the drawn integer is looked up among the weights: the
    call returns only when the draw equals the common weight, and it is
    then the first candidate that [del] takes out of [path_list]. *)
Lemma select_best_path_tie_outcome (g : DiGraph) (p : list string)
    (ps : list (list string)) (path_length : list Z) (w : Q) (ws : list Q)
    (de ds : bool) :
  Py.stdev_gt_0 (w :: ws) = Ok false ->
  Py.stdev_gt_0 (map inject_Z path_length) = Ok false ->
  select_best_path randint g (p :: ps) path_length (w :: ws) de ds
  = if Qeq_bool w (inject_Z (randint 0 (Z.of_nat (List.length (p :: ps)))))
    then (Returns (remove_paths g ps de ds), ps)
    else (Raises ValueError g, p :: ps).
Proof.
  intros Hw Hl. unfold select_best_path, kept_out.
  remember (inject_Z (randint 0 (Z.of_nat (List.length (p :: ps))))) as r.
  rewrite Hw. cbn [bind]. rewrite Hl. cbn [bind Py.index].
  destruct (Qeq_bool w r) eqn:E; cbn [bind Py.del]; [reflexivity|].
  rewrite index_absent; [reflexivity|].
  intros y Hy. apply not_true_is_false. intros Hyr.
  apply Qeq_bool_iff in Hyr.
  pose proof (stdev_zero_all_equal (w :: ws) Hw w (in_eq _ _)) as H1.
  pose proof (stdev_zero_all_equal (w :: ws) Hw y (in_cons _ _ _ Hy)) as H2.
  assert (Hwr : (w == r)%Q) by (rewrite H1, <- H2; exact Hyr).
  apply Qeq_bool_iff in Hwr. congruence.
Qed.

End TieBreak.

(** C1: on the three tied candidates of [tie_graph] (equal weights 1,
    equal lengths 3) [select_best_path] does not remove exactly one
    candidate without error, whatever integer of [0, 3] is drawn. The
    drawn integer is looked up among the weights by
    [weight_avg_list.index]: the draws 0, 2 and 3 are not among them and
    the call raises [ValueError] with the graph and the list untouched;
    the draw 1 is found at position 0, and the two candidates left in
    [path_list] are both removed from the graph, not one. *)
Theorem select_best_path_tie_of_three :
  Py.stdev_gt_0 [1#1; 1#1; 1#1]%Q = Ok false
  /\ Py.stdev_gt_0 (map inject_Z [3; 3; 3]) = Ok false
  /\ select_best_path (draw 0) tie_graph tie_paths [3; 3; 3] [1#1; 1#1; 1#1]%Q
       false false
     = (Raises ValueError tie_graph, tie_paths)
  /\ select_best_path (draw 1) tie_graph tie_paths [3; 3; 3] [1#1; 1#1; 1#1]%Q
       false false
     = (Returns (mkDiGraph ["A"; "x1"; "B"] [("A", "x1", 1); ("x1", "B", 1)]),
        [["A"; "x2"; "B"]; ["A"; "x3"; "B"]])
  /\ select_best_path (draw 2) tie_graph tie_paths [3; 3; 3] [1#1; 1#1; 1#1]%Q
       false false
     = (Raises ValueError tie_graph, tie_paths)
  /\ select_best_path (draw 3) tie_graph tie_paths [3; 3; 3] [1#1; 1#1; 1#1]%Q
       false false
     = (Raises ValueError tie_graph, tie_paths).
Proof. repeat split; vm_compute; reflexivity. Qed.

(** ** Concrete runs of the contig extractor, the annotation and the
    bubble scan *)

Lemma string_append_assoc (a b c : string) :
  ((a ++ b) ++ c = a ++ (b ++ c))%string.
Proof. induction a as [|x a IH]; simpl; [reflexivity | now rewrite IH]. Qed.

Lemma extend_seq_fold (seq a c : string) (kmers : list string) :
  fold_left
    (fun acc kmer => s <- acc ;; ch <- Py.str_last kmer ;; Ok (s ++ String ch "")%string)
    kmers (Ok a) = Ok c ->
  fold_left
    (fun acc kmer => s <- acc ;; ch <- Py.str_last kmer ;; Ok (s ++ String ch "")%string)
    kmers (Ok (seq ++ a)%string) = Ok (seq ++ c)%string.
Proof.
  revert a. induction kmers as [|kmer kmers IH]; intros a; simpl.
  - now intros [= ->].
  - destruct (Py.str_last kmer) as [ch|e]; simpl.
    + intros H. rewrite string_append_assoc. now apply IH.
    + intros H. exfalso. clear - H.
      induction kmers as [|k kmers IHk]; simpl in H; [discriminate | auto].
Qed.

(** Started from a [seq] that is not empty, the loop over one path
    appends the contig of that path to it. *)
Lemma extend_seq_appends (seq c : string) (path : list string) :
  contig_of_path path = Ok c -> extend_seq seq path = Ok (seq ++ c)%string.
Proof.
  unfold contig_of_path, extend_seq. destruct path as [|p0 rest]; [discriminate|].
  intros H. simpl append in H. now apply extend_seq_fold.
Qed.

(** What [get_contigs] emits for the simple paths of one pair: not the
    contig of each path but the running concatenation of the contigs. *)
Lemma contigs_of_paths_running (paths : list (list string)) (cs : list string) :
  Forall2 (fun p c => contig_of_path p = Ok c) paths cs ->
  forall seq contigs,
    contigs_of_paths seq paths contigs
    = Ok (contigs ++ map (fun s => (s, Z.of_nat (String.length s)))
                         (running_concat seq cs)).
Proof.
  induction 1 as [|p c paths cs Hc _ IH]; intros seq contigs; simpl.
  - now rewrite app_nil_r.
  - rewrite (extend_seq_appends seq c p Hc). simpl.
    rewrite IH, <- app_assoc. reflexivity.
Qed.

(** C2: between the source AX and the sink YZ there are two simple
    paths; the second contig [get_contigs] emits is not the sequence
    AXCYZ of the second path but the first contig followed by it, because
    [seq] is set to the empty string once per pair and not once per
    path. *)
Theorem get_contigs_carries_seq_over :
  all_simple_paths two_path_graph "AX" "YZ"
  = Ok [["AX"; "XB"; "BY"; "YZ"]; ["AX"; "XC"; "CY"; "YZ"]]
  /\ get_contigs two_path_graph (get_starting_nodes two_path_graph)
       (get_sink_nodes two_path_graph)
     = Ok [("AXBYZ", 5); ("AXBYZAXCYZ", 10)].
Proof. split; vm_compute; reflexivity. Qed.


(** C6: the candidates [solve_bubble] presents for the bubble from A to N
    of the graph A -> B -> N with the chord A -> N are A, B, N and A, N.
    The weight recorded for A, B, N is 4, the mean of all three edges of
    the graph, the chord included; the mean over the two edges that join
    its consecutive nodes is 1. *)
Theorem path_average_weight_counts_chord :
  all_simple_paths chord_graph "A" "N" = Ok [["A"; "B"; "N"]; ["A"; "N"]]
  /\ annotate chord_graph [["A"; "B"; "N"]; ["A"; "N"]]
     = Ok ([3; 2], [4#1; 10#1]%Q)
  /\ path_average_weight chord_graph ["A"; "B"; "N"] = Ok (4#1)%Q
  /\ Py.mean (consecutive_weights chord_graph ["A"; "B"; "N"]) = Ok (1#1)%Q.
Proof. repeat split; vm_compute; reflexivity. Qed.

(** C5: in [twin_bubbles] the first node in scan order with two
    predecessors that share an ancestor is D; the scan goes on to E, which
    also has several predecessors, and leaves with E recorded. The bubble
    resolved is the one at E (B is removed), where resolving the bubble
    at D removes C. In [bubble_then_join] the scan likewise passes from D
    to E, whose predecessors X and Y share no ancestor: it leaves with
    [bubble] set and [ancestor_node] None, and the call raises. *)
Theorem simplify_bubbles_resolves_last_scanned :
  scan_n first_pick twin_bubbles (nodes twin_bubbles) (mkScan false None None)
  = Ok (mkScan true (Some "A") (Some "E"))
  /\ simplify_bubbles (draw 0) first_pick 5 twin_bubbles
     = Returns (mkDiGraph ["A"; "C"; "D"; "E"]
                  [("A", "C", 1); ("C", "D", 1); ("C", "E", 10)])
  /\ solve_bubble (draw 0) twin_bubbles (Some "A") "D"
     = Returns (mkDiGraph ["A"; "B"; "D"; "E"]
                  [("A", "B", 1); ("B", "D", 10); ("B", "E", 1)])
  /\ scan_n first_pick bubble_then_join (nodes bubble_then_join)
       (mkScan false None None)
     = Ok (mkScan true None (Some "E"))
  /\ simplify_bubbles (draw 0) first_pick 5 bubble_then_join
     = Raises NodeNotFound bubble_then_join.
Proof. repeat split; vm_compute; reflexivity. Qed.

(** ** Well-formed graphs *)

Lemma nodes_add_node (g : DiGraph) (n m : string) :
  In m (nodes (add_node g n)) <-> In m (nodes g) \/ m = n.
Proof.
  unfold add_node. destruct (has_node g n) eqn:E.
  - apply mem_In in E. intuition congruence.
  - simpl. rewrite in_app_iff. simpl. intuition congruence.
Qed.

Lemma well_formed_empty : well_formed Nx.empty.
Proof. intros e []. Qed.

Lemma well_formed_add_edge (g : DiGraph) (u v : string) (w : Z) :
  well_formed g -> well_formed (add_edge g u v w).
Proof.
  intros Hwf. unfold add_edge.
  set (g' := add_node (add_node g u) v).
  assert (Hn : forall m, In m (nodes g) \/ m = u \/ m = v -> In m (nodes g')).
  { intros m H. unfold g'. rewrite !nodes_add_node. tauto. }
  assert (He : edges g' = edges g) by (unfold g'; now rewrite !edges_add_node).
  destruct (has_edge g' u v); intros e Hin; simpl in *.
  - apply in_map_iff in Hin. destruct Hin as [e0 [<- Hin]].
    rewrite He in Hin. destruct (Hwf e0 Hin).
    destruct (String.eqb (src e0) u && String.eqb (dst e0) v); simpl; auto.
  - rewrite He in Hin. apply in_app_iff in Hin. destruct Hin as [Hin|[<-|[]]].
    + destruct (Hwf e Hin). auto.
    + simpl. auto.
Qed.

Lemma well_formed_graph_of_edges (es : list edge) : well_formed (graph_of_edges es).
Proof.
  unfold graph_of_edges.
  assert (G : forall g, well_formed g ->
              well_formed (fold_left
                (fun g e => add_edge g (src e) (dst e) (weight e)) es g)).
  { induction es as [|e es IH]; intros g Hg; simpl; auto using well_formed_add_edge. }
  apply G, well_formed_empty.
Qed.

Lemma well_formed_without (g : DiGraph) (r : list string) :
  well_formed g -> well_formed (without g r).
Proof.
  intros Hwf e Hin. simpl in *. apply filter_In in Hin.
  destruct Hin as [Hin Hkeep]. apply andb_true_iff in Hkeep.
  destruct Hkeep as [H1 H2]. destruct (Hwf e Hin).
  split; apply filter_In; auto.
Qed.

Lemma predecessors_nodes (g : DiGraph) (n p : string) :
  well_formed g -> In p (predecessors g n) -> has_node g p = true.
Proof.
  intros Hwf Hin. unfold predecessors in Hin. apply in_map_iff in Hin.
  destruct Hin as [e [<- He]]. apply filter_In in He. destruct He as [He _].
  apply mem_In. now apply Hwf.
Qed.

Lemma pairs_In (l : list string) (i j : string) :
  In (i, j) (pairs l) -> In i l /\ In j l.
Proof.
  induction l as [|a l IH]; simpl; [contradiction|].
  rewrite in_app_iff, in_map_iff. intros [[x [[= <- <-] Hx]]|H]; auto.
  destruct (IH H). auto.
Qed.

(** ** The graph primitives and walks *)

Lemma successors_nodes (g : DiGraph) (u v : string) :
  well_formed g -> In v (successors g u) -> In u (nodes g) /\ In v (nodes g).
Proof.
  intros Hwf Hin. unfold successors in Hin. apply in_map_iff in Hin.
  destruct Hin as [e [<- He]]. apply filter_In in He. destruct He as [He Hs].
  apply String.eqb_eq in Hs. subst u. now apply Hwf.
Qed.

Lemma reach_within_walk (k : nat) (g : DiGraph) (s t : string) :
  reach_within k g s t = true -> walk g s t.
Proof.
  revert s. induction k as [|k IH]; intros s; simpl; rewrite orb_true_iff.
  - intros [H|H]; [|discriminate]. apply String.eqb_eq in H. subst. constructor.
  - intros [H|H].
    + apply String.eqb_eq in H. subst. constructor.
    + apply existsb_exists in H. destruct H as [c [Hc Hr]].
      econstructor; eauto.
Qed.

Lemma reach_within_S (k : nat) (g : DiGraph) (s t : string) :
  reach_within k g s t = true -> reach_within (S k) g s t = true.
Proof.
  revert s. induction k as [|k IH]; intros s H.
  - simpl in *. rewrite orb_false_r in H. now rewrite H.
  - change (String.eqb s t
            || existsb (fun c => reach_within (S k) g c t) (successors g s) = true).
    simpl in H. apply orb_true_iff in H. apply orb_true_iff.
    destruct H as [H|H]; [now left | right].
    apply existsb_exists in H. destruct H as [c [Hc Hr]].
    apply existsb_exists. exists c. split; auto.
Qed.

Lemma reach_within_le (k k' : nat) (g : DiGraph) (s t : string) :
  (k <= k')%nat -> reach_within k g s t = true -> reach_within k' g s t = true.
Proof.
  induction 1 as [|k' Hle IH]; intros H; auto using reach_within_S.
Qed.

(** Along a path of [S k] nodes, the last node is within [k] edges. *)
Lemma is_path_reach_within (g : DiGraph) (l : list string) (s : string) :
  is_path g (s :: l) ->
  reach_within (List.length l) g s (last (s :: l) s) = true.
Proof.
  revert s. induction l as [|v l IH]; intros s Hp.
  - simpl. now rewrite String.eqb_refl.
  - destruct Hp as [Hv Hp]. 
    change (String.eqb s (last (s :: v :: l) s)
            || existsb (fun c => reach_within (List.length l) g c
                                   (last (s :: v :: l) s)) (successors g s) = true).
    apply orb_true_iff. right. apply existsb_exists. exists v. split; [exact Hv|].
    specialize (IH v Hp).
    replace (last (s :: v :: l) s) with (last (v :: l) v); [exact IH|].
    clear. simpl. destruct l as [|x l]; [reflexivity|].
    revert x. induction l as [|y l IHl]; intros x; [reflexivity|].
    simpl in *. apply IHl.
Qed.

Lemma last_cons_indep {A : Type} (x : A) (l : list A) (d d' : A) :
  last (x :: l) d = last (x :: l) d'.
Proof.
  revert x. induction l as [|y l IH]; intros x; [reflexivity|].
  simpl in *. apply IH.
Qed.

Lemma is_path_suffix (g : DiGraph) (l1 l2 : list string) :
  is_path g (l1 ++ l2) -> is_path g l2.
Proof.
  induction l1 as [|a l1 IH]; simpl; [auto|].
  destruct (l1 ++ l2) eqn:E; intros H.
  - destruct l1; [|discriminate]. simpl in E. subst. exact I.
  - apply IH. tauto.
Qed.

Lemma last_indep {A : Type} (l : list A) (d d' : A) :
  l <> [] -> last l d = last l d'.
Proof.
  destruct l as [|x l]; [congruence|]. intros _. apply last_cons_indep.
Qed.

Lemma last_app_cons {A : Type} (l1 : list A) (x : A) (l2 : list A) (d d' : A) :
  last (l1 ++ x :: l2) d = last (x :: l2) d'.
Proof.
  induction l1 as [|a l1 IH]; cbn [app].
  - apply last_cons_indep.
  - destruct (l1 ++ x :: l2) as [|a0 l] eqn:E; [destruct l1; discriminate|].
    change (last (a0 :: l) d = last (x :: l2) d'). exact IH.
Qed.

(** A walk can be cut down to a simple path. *)
Lemma walk_simple_path (g : DiGraph) (s t : string) :
  walk g s t -> exists l, simple_path g s t (s :: l).
Proof.
  induction 1 as [n|u v t Hv Hw [l [_ [Hlast [Hp Hnd]]]]].
  - exists []. split; [|split; [|split]]; simpl; auto.
    repeat constructor. intros [].
  - destruct (in_dec string_dec u (v :: l)) as [Hin|Hnin].
    + apply in_split in Hin. destruct Hin as [l1 [l2 E]].
      exists l2. split; [|split; [|split]].
      * reflexivity.
      * rewrite <- Hlast, E. symmetry. apply last_app_cons.
      * rewrite E in Hp. eapply is_path_suffix; eauto.
      * rewrite E in Hnd. eapply NoDup_app_remove_l; eauto.
    + exists (v :: l). split; [|split; [|split]].
      * reflexivity.
      * rewrite <- Hlast. apply (last_app_cons [u] v l).
      * simpl. auto.
      * constructor; auto.
Qed.

Lemma is_path_nodes (g : DiGraph) (s : string) (l : list string) :
  well_formed g -> is_path g (s :: l) -> l <> [] -> incl (s :: l) (nodes g).
Proof.
  intros Hwf. revert s. induction l as [|v l IH]; intros s Hp Hne; [congruence|].
  destruct Hp as [Hv Hp]. destruct (successors_nodes g s v Hwf Hv) as [Hs Hv'].
  intros x [<-|Hx]; [exact Hs|].
  destruct l as [|w l].
  - destruct Hx as [<-|[]]. exact Hv'.
  - apply (IH v Hp); [discriminate | exact Hx].
Qed.

(** [reaches] decides whether a walk exists. *)
Lemma reaches_walk (g : DiGraph) (s t : string) :
  well_formed g -> (reaches g s t = true <-> walk g s t).
Proof.
  intros Hwf. split; [apply reach_within_walk|].
  intros Hw. destruct (walk_simple_path g s t Hw) as [l [_ [Hlast [Hp Hnd]]]].
  unfold reaches. rewrite <- Hlast.
  apply reach_within_le with (k := List.length l); [|now apply is_path_reach_within].
  destruct l as [|v l]; [simpl; lia|].
  assert (Hincl : incl (s :: v :: l) (nodes g))
    by (apply is_path_nodes; auto; discriminate).
  pose proof (NoDup_incl_length Hnd Hincl) as Hlen. simpl in *. lia.
Qed.

(** [nx.has_path] answers, for two nodes of the graph, whether a walk
    leads from the one to the other. *)
Lemma has_path_walk (g : DiGraph) (s t : string) (b : bool) :
  well_formed g -> has_path g s t = Ok b -> (b = true <-> walk g s t).
Proof.
  intros Hwf. unfold has_path.
  destruct (has_node g s && has_node g t); [|discriminate].
  intros [= <-]. now apply reaches_walk.
Qed.

(** [nx.is_directed_acyclic_graph] answers whether no edge [n -> c] is
    closed into a cycle by a walk from [c] back to [n]. *)
Lemma is_directed_acyclic_graph_walk (g : DiGraph) :
  well_formed g ->
  (is_directed_acyclic_graph g = true
   <-> forall n c, In c (successors g n) -> ~ walk g c n).
Proof.
  intros Hwf. unfold is_directed_acyclic_graph. rewrite forallb_forall. split.
  - intros H n c Hc Hw.
    destruct (successors_nodes g n c Hwf Hc) as [Hn _].
    specialize (H n Hn). apply negb_true_iff in H.
    assert (existsb (fun c => reaches g c n) (successors g n) = true); [|congruence].
    apply existsb_exists. exists c. split; [exact Hc|]. now apply reaches_walk.
  - intros H n Hn. apply negb_true_iff, not_true_is_false. intros Hex.
    apply existsb_exists in Hex. destruct Hex as [c [Hc Hr]].
    apply (H n c Hc). now apply reaches_walk.
Qed.

(** The common ancestors of [v] and [w] are the nodes of the graph from
    which a walk leads to [v] and a walk leads to [w]. *)
Lemma common_ancestors_walk (g : DiGraph) (v w a : string) :
  well_formed g ->
  (In a (common_ancestors g v w)
   <-> In a (nodes g) /\ walk g a v /\ walk g a w).
Proof.
  intros Hwf. unfold common_ancestors. rewrite filter_In, andb_true_iff.
  rewrite !reaches_walk by assumption. tauto.
Qed.

Lemma is_path_snoc (g : DiGraph) (l : list string) (u c : string) :
  is_path g (l ++ [u]) -> In c (successors g u) -> is_path g (l ++ [u; c]).
Proof.
  induction l as [|a l IH]; intros Hp Hc.
  - simpl. auto.
  - cbn [app] in *. destruct (l ++ [u]) as [|x r] eqn:E; [destruct l; discriminate|].
    destruct (l ++ [u; c]) as [|x' r'] eqn:E'; [destruct l; discriminate|].
    destruct Hp as [Hx Hp]. specialize (IH Hp Hc).
    assert (x' = x).
    { destruct l as [|y l]; simpl in E, E'; congruence. }
    subst x'. split; assumption.
Qed.

Lemma NoDup_snoc {A : Type} (l : list A) (c : A) :
  NoDup l -> ~ In c l -> NoDup (l ++ [c]).
Proof.
  intros Hnd Hc. apply NoDup_app; [exact Hnd | repeat constructor; intros [] |].
  intros x Hx [<-|[]]. contradiction.
Qed.

Lemma mem_false (n : string) (l : list string) : mem n l = false <-> ~ In n l.
Proof. rewrite <- mem_In. destruct (mem n l); intuition congruence. Qed.

(** Every path [extend] yields continues the current path to the target
    along edges, without repeating a node. *)
Lemma extend_sound (g : DiGraph) (t : string) (b : nat) (visited : list string)
    (u : string) (p : list string) :
  NoDup (visited ++ [u]) -> is_path g (visited ++ [u]) ->
  In p (extend b g t visited u) ->
  is_path g p /\ NoDup p /\ last p u = t /\ exists rest, p = visited ++ u :: rest.
Proof.
  revert visited u. induction b as [|b IH]; intros visited u Hnd Hp Hin;
    [contradiction|].
  simpl in Hin. apply in_flat_map in Hin. destruct Hin as [c [Hc Hin]].
  destruct (mem c (visited ++ [u])) eqn:Em; [contradiction|].
  apply mem_false in Em.
  assert (E : (visited ++ [u]) ++ [c] = visited ++ [u; c])
    by now rewrite <- app_assoc.
  destruct (String.eqb c t) eqn:Et.
  - apply String.eqb_eq in Et. destruct Hin as [<-|[]].
    rewrite <- E. split; [rewrite E; now apply is_path_snoc|].
    split; [now apply NoDup_snoc|].
    split; [now rewrite last_last|].
    exists [c]. now rewrite E.
  - destruct (IH (visited ++ [u]) c) as [H1 [H2 [H3 [rest H4]]]]; auto.
    + now apply NoDup_snoc.
    + rewrite E. now apply is_path_snoc.
    + split; [exact H1|]. split; [exact H2|].
      split.
      * rewrite <- H3. apply last_indep. rewrite H4. intros Hnil.
        apply app_eq_nil in Hnil. destruct Hnil; discriminate.
      * exists (c :: rest). rewrite H4, <- app_assoc. reflexivity.
Qed.



(** ** A scan that finds nothing *)

Section Fixpoints.

Variable randint : Z -> Z -> Z.
Variable pick : string -> list string -> string.

Lemma lowest_common_ancestor_none (g : DiGraph) (v w : string) :
  is_directed_acyclic_graph g = true ->
  has_node g v = true -> has_node g w = true ->
  common_ancestors g v w = [] ->
  lowest_common_ancestor pick g v w = Ok None.
Proof.
  intros Hdag Hv Hw Hc. unfold lowest_common_ancestor.
  rewrite Hdag, Hv, Hw, Hc. simpl.
  destruct (nodes g) eqn:E; [|reflexivity].
  unfold has_node in Hv. rewrite E in Hv. discriminate.
Qed.

Lemma scan_j_none (g : DiGraph) (i : string) (js : list string) (st : bubble_scan) :
  (forall j, In j js -> lowest_common_ancestor pick g i j = Ok None) ->
  exists a, scan_j pick g i js st = Ok (mkScan (bubble st) a (noeud_n st)).
Proof.
  revert st. induction js as [|j js IH]; intros st H; simpl.
  - exists (ancestor_node st). now destruct st.
  - rewrite (H j (in_eq _ _)). simpl.
    destruct (IH (mkScan (bubble st) None (noeud_n st))) as [a Ha].
    + intros j' Hj'. apply H. now right.
    + exists a. exact Ha.
Qed.

Lemma scan_i_none (g : DiGraph) (preds : list string) (st : bubble_scan) :
  (forall i j, In (i, j) (pairs preds) ->
               lowest_common_ancestor pick g i j = Ok None) ->
  exists a, scan_i pick g preds st = Ok (mkScan (bubble st) a (noeud_n st)).
Proof.
  revert st. induction preds as [|i rest IH]; intros st H; simpl.
  - exists (ancestor_node st). now destruct st.
  - destruct (scan_j_none g i rest st) as [a Ha].
    + intros j Hj. apply H. simpl. apply in_or_app. left.
      apply in_map_iff. eauto.
    + rewrite Ha. simpl.
      destruct (IH (mkScan (bubble st) a (noeud_n st))) as [a' Ha'].
      * intros i' j' Hij. apply H. simpl. apply in_or_app. now right.
      * exists a'. exact Ha'.
Qed.

Lemma scan_n_none (g : DiGraph) (ns : list string) (st : bubble_scan) :
  (forall n i j, In n ns -> In (i, j) (pairs (predecessors g n)) ->
                 lowest_common_ancestor pick g i j = Ok None) ->
  bubble st = false ->
  exists st', scan_n pick g ns st = Ok st' /\ bubble st' = false.
Proof.
  revert st. induction ns as [|n ns IH]; intros st H Hb; simpl.
  - eauto.
  - destruct (1 <? List.length (predecessors g n))%nat.
    + destruct (scan_i_none g (predecessors g n)
                  (mkScan (bubble st) (ancestor_node st) (Some n))) as [a Ha].
      * intros i j Hij. apply (H n); [now left | exact Hij].
      * rewrite Ha. simpl. apply IH; [|exact Hb].
        intros n' i j Hn'. apply H. now right.
    + rewrite Hb. apply IH; [|exact Hb].
      intros n' i j Hn'. apply H. now right.
Qed.

Lemma bubble_free_pairs (g : DiGraph) (n i j : string) :
  bubble_free g = true -> In n (nodes g) ->
  In (i, j) (pairs (predecessors g n)) -> common_ancestors g i j = [].
Proof.
  unfold bubble_free. rewrite forallb_forall. intros H Hn Hij.
  specialize (H n Hn). rewrite forallb_forall in H.
  specialize (H (i, j) Hij). simpl in H.
  destruct (common_ancestors g i j); [reflexivity | discriminate].
Qed.

Lemma simplify_bubbles_fixpoint (g : DiGraph) (depth : nat) :
  well_formed g -> is_directed_acyclic_graph g = true -> bubble_free g = true ->
  simplify_bubbles randint pick (S depth) g = Returns g.
Proof.
  intros Hwf Hdag Hfree. simpl.
  destruct (scan_n_none g (nodes g) (mkScan false None None)) as [st [Hst Hb]].
  - intros n i j Hn Hij. destruct (pairs_In _ _ _ Hij) as [Hi Hj].
    apply lowest_common_ancestor_none; eauto using predecessors_nodes, bubble_free_pairs.
  - reflexivity.
  - rewrite Hst, Hb. reflexivity.
Qed.

Lemma entry_paths_none (g : DiGraph) (node : string) (starting_nodes : list string)
    (st : tip_scan) :
  (forall start, In start starting_nodes -> has_path g start node = Ok false) ->
  entry_paths g node starting_nodes st = Ok st.
Proof.
  induction starting_nodes as [|start rest IH]; intros H; simpl; [reflexivity|].
  rewrite (H start (in_eq _ _)). simpl. apply IH. intros s Hs. apply H. now right.
Qed.

Lemma out_paths_none (g : DiGraph) (node : string) (ending_nodes : list string)
    (st : tip_scan) :
  (forall end_, In end_ ending_nodes -> has_path g node end_ = Ok false) ->
  out_paths g node ending_nodes st = Ok st.
Proof.
  induction ending_nodes as [|end_ rest IH]; intros H; simpl; [reflexivity|].
  rewrite (H end_ (in_eq _ _)). simpl. apply IH. intros s Hs. apply H. now right.
Qed.

Lemma entry_scan_none (g : DiGraph) (ns starting_nodes : list string)
    (last : option tip_scan) :
  (forall n start, In n ns -> (1 <? List.length (predecessors g n))%nat = true ->
                   In start starting_nodes -> has_path g start n = Ok false) ->
  entry_scan g ns starting_nodes last
  = Ok (match ns with [] => last | _ => Some no_tips end).
Proof.
  revert last. induction ns as [|n ns IH]; intros last H; simpl; [reflexivity|].
  assert (E : (if (1 <? List.length (predecessors g n))%nat
               then entry_paths g n starting_nodes no_tips
               else Ok no_tips) = Ok no_tips).
  { destruct (1 <? List.length (predecessors g n))%nat eqn:Ep; [|reflexivity].
    apply entry_paths_none. intros s Hs. apply (H n s); auto. now left. }
  rewrite E. simpl. rewrite IH.
  - destruct ns; reflexivity.
  - intros n' s Hn'. apply H. now right.
Qed.

Lemma out_scan_none (g : DiGraph) (ns ending_nodes : list string)
    (last : option tip_scan) :
  (forall n end_, In n ns -> (1 <? List.length (successors g n))%nat = true ->
                  In end_ ending_nodes -> has_path g n end_ = Ok false) ->
  out_scan g ns ending_nodes last
  = Ok (match ns with [] => last | _ => Some no_tips end).
Proof.
  revert last. induction ns as [|n ns IH]; intros last H; simpl; [reflexivity|].
  assert (E : (if (1 <? List.length (successors g n))%nat
               then out_paths g n ending_nodes no_tips
               else Ok no_tips) = Ok no_tips).
  { destruct (1 <? List.length (successors g n))%nat eqn:Ep; [|reflexivity].
    apply out_paths_none. intros s Hs. apply (H n s); auto. now left. }
  rewrite E. simpl. rewrite IH.
  - destruct ns; reflexivity.
  - intros n' s Hn'. apply H. now right.
Qed.

Lemma solve_entry_tips_fixpoint (g : DiGraph) (starting_nodes : list string)
    (depth : nat) :
  nodes g <> [] -> forallb (has_node g) starting_nodes = true ->
  entry_tip_free g starting_nodes = true ->
  solve_entry_tips randint (S depth) g starting_nodes = Returns g.
Proof.
  intros Hne Hin Hfree. simpl. rewrite entry_scan_none.
  - destruct (nodes g); [congruence | reflexivity].
  - intros n start Hn Hp Hs. unfold has_path.
    rewrite forallb_forall in Hin. rewrite (Hin start Hs).
    apply mem_In in Hn. unfold has_node. rewrite Hn. simpl.
    unfold entry_tip_free in Hfree. rewrite forallb_forall in Hfree.
    apply mem_In in Hn. specialize (Hfree n Hn). rewrite Hp in Hfree. simpl in Hfree.
    rewrite forallb_forall in Hfree. specialize (Hfree start Hs).
    apply negb_true_iff in Hfree. now rewrite Hfree.
Qed.

Lemma solve_out_tips_fixpoint (g : DiGraph) (ending_nodes : list string)
    (depth : nat) :
  nodes g <> [] -> forallb (has_node g) ending_nodes = true ->
  out_tip_free g ending_nodes = true ->
  solve_out_tips randint (S depth) g ending_nodes = Returns g.
Proof.
  intros Hne Hin Hfree. simpl. rewrite out_scan_none.
  - destruct (nodes g); [congruence | reflexivity].
  - intros n end_ Hn Hp Hs. unfold has_path.
    rewrite forallb_forall in Hin. rewrite (Hin end_ Hs).
    apply mem_In in Hn. unfold has_node. rewrite Hn. simpl.
    unfold out_tip_free in Hfree. rewrite forallb_forall in Hfree.
    apply mem_In in Hn. specialize (Hfree n Hn). rewrite Hp in Hfree. simpl in Hfree.
    rewrite forallb_forall in Hfree. specialize (Hfree end_ Hs).
    apply negb_true_iff in Hfree. now rewrite Hfree.
Qed.

(** C9, amended: [simplify_bubbles] returns unchanged every acyclic graph
    in which no node has two direct predecessors with a common ancestor;
    [solve_entry_tips] returns unchanged every graph with at least one
    node in which no node with several direct predecessors is reached
    from one of the starting nodes, these being nodes of the graph; and
    [solve_out_tips] likewise for the nodes with several direct
    successors and ending nodes of the graph. *)
Theorem simplifiers_leave_simplified_graph (g : DiGraph) (depth : nat) :
  (well_formed g -> is_directed_acyclic_graph g = true -> bubble_free g = true ->
   simplify_bubbles randint pick (S depth) g = Returns g)
  /\ (forall starting_nodes,
        nodes g <> [] -> forallb (has_node g) starting_nodes = true ->
        entry_tip_free g starting_nodes = true ->
        solve_entry_tips randint (S depth) g starting_nodes = Returns g)
  /\ (forall ending_nodes,
        nodes g <> [] -> forallb (has_node g) ending_nodes = true ->
        out_tip_free g ending_nodes = true ->
        solve_out_tips randint (S depth) g ending_nodes = Returns g).
Proof.
  repeat split; intros.
  - now apply simplify_bubbles_fixpoint.
  - now apply solve_entry_tips_fixpoint.
  - now apply solve_out_tips_fixpoint.
Qed.

End Fixpoints.

Lemma simplifiers_leave_simplified_graph_witness :
  simplify_bubbles (draw 0) first_pick 1 join_graph = Returns join_graph
  /\ solve_entry_tips (draw 0) 1 chain_graph ["AC"] = Returns chain_graph
  /\ solve_out_tips (draw 0) 1 chain_graph ["GT"] = Returns chain_graph.
Proof.
  split; [|split].
  - apply (proj1 (simplifiers_leave_simplified_graph (draw 0) first_pick
                    join_graph 0)).
    + apply well_formed_graph_of_edges.
    + reflexivity.
    + reflexivity.
  - apply (proj1 (proj2 (simplifiers_leave_simplified_graph (draw 0) first_pick
                           chain_graph 0))).
    + discriminate.
    + reflexivity.
    + reflexivity.
  - apply (proj2 (proj2 (simplifiers_leave_simplified_graph (draw 0) first_pick
                           chain_graph 0))).
    + discriminate.
    + reflexivity.
    + reflexivity.
Defined.

(** C9 as stated fails on a graph with a cycle: in [cycle_graph] the only
    node with several predecessors is N, and its predecessors X and Y
    have no common ancestor, so no node qualifies; yet the scan asks for
    their lowest common ancestor, which networkx refuses on a graph that
    is not acyclic, and [simplify_bubbles] raises instead of returning
    the graph. *)
Lemma simplify_bubbles_raises_on_cycle :
  bubble_free cycle_graph = true
  /\ is_directed_acyclic_graph cycle_graph = false
  /\ simplify_bubbles (draw 0) first_pick 5 cycle_graph
     = Raises NetworkXError cycle_graph.
Proof. repeat split; vm_compute; reflexivity. Qed.

(** On the graph without nodes the loop body of a tip resolver never
    runs, and the test [if tips:] after the loop reads a local that was
    never assigned. *)
Lemma tip_resolvers_on_null_graph (randint : Z -> Z -> Z) (depth : nat)
    (ns : list string) :
  solve_entry_tips randint (S depth) Nx.empty ns = Raises UnboundLocalError Nx.empty
  /\ solve_out_tips randint (S depth) Nx.empty ns = Raises UnboundLocalError Nx.empty.
Proof. split; reflexivity. Qed.

(** ** A tip scan that records a single path *)

Section SingleCandidate.

Variable randint : Z -> Z -> Z.

Lemma record_path_aligned (g : DiGraph) (st st' : tip_scan)
    (path : list (list string)) :
  aligned st -> record_path g st path = Ok st' -> aligned st'.
Proof.
  unfold aligned, record_path. intros Hal. destruct path as [|p0 rest]; [discriminate|].
  destruct (path_average_weight g p0) as [w|e]; simpl; [|discriminate].
  intros [= <-]. simpl. rewrite !length_app. simpl. lia.
Qed.

Lemma entry_paths_aligned (g : DiGraph) (node : string)
    (starting_nodes : list string) (st st' : tip_scan) :
  aligned st -> entry_paths g node starting_nodes st = Ok st' -> aligned st'.
Proof.
  revert st. induction starting_nodes as [|start rest IH]; intros st Hal; simpl.
  - now intros [= <-].
  - destruct (has_path g start node) as [[|]|e]; simpl; try discriminate.
    + destruct (all_simple_paths g start node) as [path|e]; simpl; [|discriminate].
      destruct (record_path g st path) as [st1|e] eqn:E; simpl; [|discriminate].
      apply IH. eapply record_path_aligned; eauto.
    + now apply IH.
Qed.

Lemma out_paths_aligned (g : DiGraph) (node : string)
    (ending_nodes : list string) (st st' : tip_scan) :
  aligned st -> out_paths g node ending_nodes st = Ok st' -> aligned st'.
Proof.
  revert st. induction ending_nodes as [|end_ rest IH]; intros st Hal; simpl.
  - now intros [= <-].
  - destruct (has_path g node end_) as [[|]|e]; simpl; try discriminate.
    + destruct (all_simple_paths g node end_) as [path|e]; simpl; [|discriminate].
      destruct (record_path g st path) as [st1|e] eqn:E; simpl; [|discriminate].
      apply IH. eapply record_path_aligned; eauto.
    + now apply IH.
Qed.

Lemma entry_scan_aligned (g : DiGraph) (ns starting_nodes : list string)
    (last : option tip_scan) (st : tip_scan) :
  (forall st0, last = Some st0 -> aligned st0) ->
  entry_scan g ns starting_nodes last = Ok (Some st) -> aligned st.
Proof.
  revert last. induction ns as [|n ns IH]; intros last Hlast; simpl.
  - intros [= ->]. now apply Hlast.
  - destruct (if (1 <? List.length (predecessors g n))%nat
              then entry_paths g n starting_nodes no_tips
              else Ok no_tips) as [st1|e] eqn:E; simpl; [|discriminate].
    assert (Hal : aligned st1).
    { destruct (1 <? List.length (predecessors g n))%nat.
      - eapply entry_paths_aligned; [|exact E]. reflexivity.
      - injection E as <-. reflexivity. }
    destruct (tips st1).
    + now intros [= <-].
    + apply IH. now intros st0 [= <-].
Qed.

Lemma out_scan_aligned (g : DiGraph) (ns ending_nodes : list string)
    (last : option tip_scan) (st : tip_scan) :
  (forall st0, last = Some st0 -> aligned st0) ->
  out_scan g ns ending_nodes last = Ok (Some st) -> aligned st.
Proof.
  revert last. induction ns as [|n ns IH]; intros last Hlast; simpl.
  - intros [= ->]. now apply Hlast.
  - destruct (if (1 <? List.length (successors g n))%nat
              then out_paths g n ending_nodes no_tips
              else Ok no_tips) as [st1|e] eqn:E; simpl; [|discriminate].
    assert (Hal : aligned st1).
    { destruct (1 <? List.length (successors g n))%nat.
      - eapply out_paths_aligned; [|exact E]. reflexivity.
      - injection E as <-. reflexivity. }
    destruct (tips st1).
    + now intros [= <-].
    + apply IH. now intros st0 [= <-].
Qed.

Lemma select_best_path_single (g : DiGraph) (st : tip_scan) (de ds : bool) :
  aligned st -> List.length (path_list st) = 1%nat ->
  fst (select_best_path randint g (path_list st) (path_length st)
         (weight_avg_list st) de ds)
  = Raises StatisticsError g.
Proof.
  unfold aligned. intros Hal H1. rewrite H1 in Hal.
  unfold select_best_path, kept_out, Py.stdev_gt_0. rewrite Hal. reflexivity.
Qed.

(** C10: when the scan of [solve_entry_tips] stops at a node (which then
    has several direct predecessors) with exactly one path recorded, the
    call raises [StatisticsError] - the sample standard deviation of a
    single weight - and the graph is as it was before the call; and the
    same for [solve_out_tips]. *)
Theorem tip_resolver_single_candidate_raises (g : DiGraph) (ns : list string)
    (depth : nat) (st : tip_scan) :
  (entry_scan g (nodes g) ns None = Ok (Some st) -> tips st = true ->
   List.length (path_list st) = 1%nat ->
   solve_entry_tips randint (S depth) g ns = Raises StatisticsError g)
  /\ (out_scan g (nodes g) ns None = Ok (Some st) -> tips st = true ->
      List.length (path_list st) = 1%nat ->
      solve_out_tips randint (S depth) g ns = Raises StatisticsError g).
Proof.
  split; intros Hscan Htips Hone; simpl; rewrite Hscan, Htips.
  - rewrite select_best_path_single; auto.
    eapply entry_scan_aligned; [|exact Hscan]. discriminate.
  - rewrite select_best_path_single; auto.
    eapply out_scan_aligned; [|exact Hscan]. discriminate.
Qed.

End SingleCandidate.

Lemma tip_resolver_single_candidate_raises_witness :
  solve_entry_tips (draw 0) 1 diamond ["S"] = Raises StatisticsError diamond
  /\ solve_out_tips (draw 0) 1 diamond ["N"] = Raises StatisticsError diamond.
Proof.
  split.
  - apply (proj1 (tip_resolver_single_candidate_raises (draw 0) diamond ["S"] 0
                    (mkTips [["S"; "a"; "N"]] [3] [1#1]%Q true)));
      reflexivity.
  - apply (proj2 (tip_resolver_single_candidate_raises (draw 0) diamond ["N"] 0
                    (mkTips [["S"; "a"; "N"]] [3] [1#1]%Q true)));
      reflexivity.
Defined.

(** * Further properties *)

(** ** Slices and windows *)

Lemma list_slice_tail {A : Type} (l : list A) :
  Py.list_slice l (Some 1) None = tl l.
Proof.
  unfold Py.list_slice, Py.slice_bounds, Py.clamp. change (1 <? 0) with false.
  cbv iota. destruct l as [|x l]; [reflexivity|].
  rewrite Z.min_l by (simpl List.length; lia).
  change (Z.to_nat 1) with 1%nat. simpl skipn. simpl tl.
  apply firstn_all2. simpl List.length. lia.
Qed.

Lemma list_slice_front {A : Type} (l : list A) :
  Py.list_slice l None (Some (-1)) = removelast l.
Proof.
  unfold Py.list_slice, Py.slice_bounds, Py.clamp. change (-1 <? 0) with true.
  cbv iota. simpl skipn. rewrite removelast_firstn_len. f_equal.
  destruct l; simpl List.length; lia.
Qed.

Lemma list_slice_inner {A : Type} (l : list A) :
  Py.list_slice l (Some 1) (Some (-1)) = removelast (tl l).
Proof.
  unfold Py.list_slice, Py.slice_bounds, Py.clamp.
  change (1 <? 0) with false. change (-1 <? 0) with true. cbv iota.
  destruct l as [|x l]; [reflexivity|].
  rewrite Z.min_l by (simpl List.length; lia).
  change (Z.to_nat 1) with 1%nat. simpl skipn. simpl tl.
  rewrite removelast_firstn_len. f_equal.
  destruct l; simpl List.length; lia.
Qed.

Lemma substring_substring (s : string) :
  forall i b j a, (j + a <= b)%nat ->
    substring j a (substring i b s) = substring (i + j) a s.
Proof.
  induction s as [|c s IH]; intros i b j a H.
  - assert (E : forall n m, substring n m "" = "") by (intros [|n] [|m]; reflexivity).
    now rewrite !E.
  - destruct i as [|i].
    + destruct b as [|b].
      * assert (j = 0%nat) by lia. assert (a = 0%nat) by lia. subst. reflexivity.
      * simpl substring at 2. destruct j as [|j].
        -- destruct a as [|a]; [reflexivity|]. simpl.
           f_equal. apply (IH 0%nat b 0%nat a). lia.
        -- simpl. apply (IH 0%nat b j a). lia.
    + simpl. apply IH. exact H.
Qed.

Lemma str_slice_prefix (t : string) :
  Py.str_slice t None (Some (-1)) = substring 0 (String.length t - 1) t.
Proof.
  unfold Py.str_slice, Py.slice_bounds, Py.clamp. change (-1 <? 0) with true.
  cbv iota. change (Z.to_nat 0) with 0%nat. f_equal. lia.
Qed.

Lemma str_slice_suffix (t : string) :
  Py.str_slice t (Some 1) None = substring 1 (String.length t - 1) t.
Proof.
  unfold Py.str_slice, Py.slice_bounds, Py.clamp. change (1 <? 0) with false.
  cbv iota. destruct t as [|c t]; [reflexivity|].
  rewrite Z.min_l by (simpl String.length; lia).
  change (Z.to_nat 1) with 1%nat. f_equal. simpl String.length. lia.
Qed.

Lemma window_length (read : string) (k : Z) :
  0 < k <= Z.of_nat (String.length read) + 1 ->
  String.length
    (Py.str_slice read None (Some (Z.of_nat (String.length read) - k + 1)))
  = Z.to_nat (Z.of_nat (String.length read) - k + 1).
Proof.
  intros Hk. unfold Py.str_slice, Py.slice_bounds, Py.clamp.
  destruct (Z.of_nat (String.length read) - k + 1 <? 0) eqn:E;
    [apply Z.ltb_lt in E; lia|].
  rewrite Z.min_l by lia. rewrite Z.sub_0_r. change (Z.to_nat 0) with 0%nat.
  apply substring_length. lia.
Qed.

Lemma cut_kmer_windows (read : string) (k : nat) :
  (0 < k <= String.length read + 1)%nat ->
  cut_kmer read (Z.of_nat k) = windows k (String.length read + 1 - k) read.
Proof.
  intros Hk. unfold cut_kmer, windows, Py.indices.
  rewrite window_length by lia.
  replace (Z.to_nat (Z.of_nat (String.length read) - Z.of_nat k + 1))
    with (String.length read + 1 - k)%nat by lia.
  rewrite map_map. apply map_ext_in. intros r Hr. apply in_seq in Hr.
  unfold Py.str_slice, Py.slice_bounds, Py.clamp.
  destruct (Z.of_nat r <? 0) eqn:E1; [apply Z.ltb_lt in E1; lia|].
  destruct (Z.of_nat r + Z.of_nat k <? 0) eqn:E2; [apply Z.ltb_lt in E2; lia|].
  rewrite !Z.min_l by lia. f_equal; lia.
Qed.

(** X1: for a k-mer size between 1 and the length of the read plus one,
    [cut_kmer] yields [len + 1 - k] k-mers (none when [k = len + 1]), and
    the one of rank [r] is the substring of [k] characters that starts at
    position [r] of the read. *)
Theorem cut_kmer_sliding_windows (read : string) (k : nat) :
  (0 < k <= String.length read + 1)%nat ->
  List.length (cut_kmer read (Z.of_nat k)) = (String.length read + 1 - k)%nat
  /\ forall r, (r < String.length read + 1 - k)%nat ->
               nth r (cut_kmer read (Z.of_nat k)) "" = substring r k read.
Proof.
  intros Hk. rewrite cut_kmer_windows by exact Hk. unfold windows.
  rewrite length_map, length_seq. split; [reflexivity|].
  intros r Hr.
  rewrite (nth_indep _ "" (substring 0 k read)) by now rewrite length_map, length_seq.
  rewrite (map_nth (fun r => substring r k read)), seq_nth by exact Hr. reflexivity.
Qed.

Lemma cut_kmer_sliding_windows_witness :
  List.length (cut_kmer "ACGTA" 3) = 3%nat
  /\ forall r, (r < 3)%nat -> nth r (cut_kmer "ACGTA" 3) "" = substring r 3 "ACGTA".
Proof. apply (cut_kmer_sliding_windows "ACGTA" 3). simpl. lia. Defined.

(** X2: for a k-mer size greater than the length of the read plus one,
    the end of the window [read[:len - k + 1]] is negative and counted
    from the right: [cut_kmer] yields [2 * len - k + 1] strings (none
    when that is not positive), which are the suffixes of the read that
    start at positions 0, 1, ... in turn. *)
Theorem cut_kmer_beyond_read (read : string) (k : Z) :
  Z.of_nat (String.length read) + 1 < k ->
  cut_kmer read k
  = map (fun r => substring r (String.length read - r) read)
        (seq 0 (Z.to_nat (2 * Z.of_nat (String.length read) - k + 1))).
Proof.
  intros Hk. unfold cut_kmer, Py.indices.
  assert (Hwin : String.length
            (Py.str_slice read None (Some (Z.of_nat (String.length read) - k + 1)))
          = Z.to_nat (2 * Z.of_nat (String.length read) - k + 1)).
  { unfold Py.str_slice, Py.slice_bounds, Py.clamp.
    destruct (Z.of_nat (String.length read) - k + 1 <? 0) eqn:E;
      [|apply Z.ltb_ge in E; lia].
    rewrite Z.sub_0_r. simpl Z.to_nat at 1.
    rewrite substring_length; lia. }
  rewrite Hwin, map_map. apply map_ext_in. intros r Hr. apply in_seq in Hr.
  unfold Py.str_slice, Py.slice_bounds, Py.clamp.
  destruct (Z.of_nat r <? 0) eqn:E1; [apply Z.ltb_lt in E1; lia|].
  destruct (Z.of_nat r + k <? 0) eqn:E2; [apply Z.ltb_lt in E2; lia|].
  rewrite (Z.min_l (Z.of_nat r)) by lia. rewrite (Z.min_r (Z.of_nat r + k)) by lia.
  f_equal; lia.
Qed.

Lemma cut_kmer_beyond_read_witness :
  cut_kmer "ACGTA" 7 = ["ACGTA"; "CGTA"; "GTA"; "TA"].
Proof. apply (cut_kmer_beyond_read "ACGTA" 7). simpl. lia. Defined.

(** ** Reading the reads *)

Lemma read_fastq_by_records (n : nat) :
  forall lines,
    (List.length lines <= 4 * n)%nat ->
    read_fastq lines
    = (if (List.length lines mod 4 =? 0)%nat then Exhausted else RaisesAfter)
        (map (fun i => strip_newlines (nth (4 * i + 1) lines ""))
             (seq 0 ((List.length lines + 2) / 4))).
Proof.
  induction n as [|n IH]; intros lines Hlen.
  - destruct lines; [reflexivity | simpl in Hlen; lia].
  - destruct lines as [|a [|b [|c [|d rest]]]]; try reflexivity.
    change (read_fastq (a :: b :: c :: d :: rest))
      with (yield_first (strip_newlines b) (read_fastq rest)).
    rewrite (IH rest) by (simpl in Hlen; lia).
    change (List.length (a :: b :: c :: d :: rest))
      with (4 + List.length rest)%nat.
    replace ((4 + List.length rest) mod 4)%nat with (List.length rest mod 4)%nat
      by (rewrite <- Nat.Div0.add_mod_idemp_l; reflexivity).
    replace ((4 + List.length rest + 2) / 4)%nat
      with (S ((List.length rest + 2) / 4))
      by (replace (4 + List.length rest + 2)%nat
            with (1 * 4 + (List.length rest + 2))%nat by lia;
          rewrite Nat.div_add_l by lia; lia).
    rewrite <- cons_seq, <- seq_shift, map_cons, map_map.
    assert (E : map (fun i => strip_newlines (nth (4 * S i + 1)
                                (a :: b :: c :: d :: rest) ""))
                    (seq 0 ((List.length rest + 2) / 4))
                = map (fun i => strip_newlines (nth (4 * i + 1) rest ""))
                      (seq 0 ((List.length rest + 2) / 4))).
    { apply map_ext. intros i.
      replace (4 * S i + 1)%nat with (S (S (S (S (4 * i + 1))))) by lia.
      reflexivity. }
    rewrite E. now destruct (List.length rest mod 4 =? 0)%nat.
Qed.

(** X3: on a file whose number of lines is a multiple of four,
    [read_fastq] is exhausted after yielding, for each group of four
    lines in turn, the second line of the group without its leading and
    trailing newlines; the other three lines of a group are skipped. *)
Theorem read_fastq_complete_records (lines : list string) (n : nat) :
  List.length lines = (4 * n)%nat ->
  read_fastq lines
  = Exhausted (map (fun i => strip_newlines (nth (4 * i + 1) lines "")) (seq 0 n)).
Proof.
  intros H. rewrite (read_fastq_by_records n lines) by lia. rewrite H.
  replace ((4 * n) mod 4)%nat with 0%nat
    by (rewrite Nat.mul_comm; now rewrite Nat.Div0.mod_mul).
  replace ((4 * n + 2) / 4)%nat with n
    by (rewrite Nat.mul_comm, Nat.div_add_l by lia; simpl; lia).
  reflexivity.
Qed.

Lemma read_fastq_complete_records_witness :
  read_fastq ["@r1" ++ String newline ""; "ACGT" ++ String newline "";
              "+" ++ String newline ""; "IIII" ++ String newline "";
              "@r2" ++ String newline ""; "GGCA" ++ String newline "";
              "+" ++ String newline ""; "IIII"]%string
  = Exhausted ["ACGT"; "GGCA"].
Proof.
  apply (read_fastq_complete_records
           ["@r1" ++ String newline ""; "ACGT" ++ String newline "";
            "+" ++ String newline ""; "IIII" ++ String newline "";
            "@r2" ++ String newline ""; "GGCA" ++ String newline "";
            "+" ++ String newline ""; "IIII"]%string 2).
  reflexivity.
Defined.

(** X4: on a file whose number of lines is not a multiple of four,
    [read_fastq] raises in the middle of the last record, where a
    [next(file)] finds the file exhausted. Before that it has yielded the
    read of every whole record, and the read of the last record when the
    file has at least its first two lines. *)
Theorem read_fastq_truncated_record (lines : list string) :
  (List.length lines mod 4 <> 0)%nat ->
  read_fastq lines
  = RaisesAfter (map (fun i => strip_newlines (nth (4 * i + 1) lines ""))
                     (seq 0 ((List.length lines + 2) / 4))).
Proof.
  intros H. rewrite (read_fastq_by_records (List.length lines) lines) by lia.
  apply Nat.eqb_neq in H. now rewrite H.
Qed.

Lemma read_fastq_truncated_record_witness :
  read_fastq ["@r1"; "ACGT"; "+"; "IIII"; "@r2"; "GGCA"]
  = RaisesAfter ["ACGT"; "GGCA"].
Proof.
  apply (read_fastq_truncated_record ["@r1"; "ACGT"; "+"; "IIII"; "@r2"; "GGCA"]).
  simpl. discriminate.
Defined.

(** ** The graph of a dictionary *)

Lemma build_graph_graph_of_edges (d : kmer_dict) :
  build_graph d = graph_of_edges (map kmer_edge d).
Proof.
  unfold build_graph, graph_of_edges. generalize Nx.empty.
  induction d as [|kc d IH]; intros g; simpl; [reflexivity|]. apply IH.
Qed.

Lemma nodes_add_edge (g : DiGraph) (u v : string) (w : Z) (m : string) :
  In m (nodes (add_edge g u v w)) <-> In m (nodes g) \/ m = u \/ m = v.
Proof.
  unfold add_edge. destruct (has_edge _ u v); simpl;
    rewrite !nodes_add_node; tauto.
Qed.

Lemma NoDup_add_node (g : DiGraph) (n : string) :
  NoDup (nodes g) -> NoDup (nodes (add_node g n)).
Proof.
  intros H. unfold add_node. destruct (has_node g n) eqn:E; [exact H|].
  simpl. apply NoDup_snoc; [exact H|]. now apply mem_false.
Qed.

Lemma NoDup_add_edge (g : DiGraph) (u v : string) (w : Z) :
  NoDup (nodes g) -> NoDup (nodes (add_edge g u v w)).
Proof.
  intros H. unfold add_edge. destruct (has_edge _ u v); simpl;
    auto using NoDup_add_node.
Qed.

Lemma edges_add_edge (g : DiGraph) (u v : string) (w : Z) (e : edge) :
  In e (edges (add_edge g u v w)) -> In e (edges g) \/ e = (u, v, w).
Proof.
  unfold add_edge. destruct (has_edge _ u v); simpl; rewrite !edges_add_node.
  - rewrite in_map_iff. intros [e0 [He0 Hin]].
    destruct (String.eqb (src e0) u && String.eqb (dst e0) v); subst; auto.
  - rewrite in_app_iff. simpl. intuition.
Qed.

Lemma existsb_map_compose {A B : Type} (f : B -> bool) (h : A -> B) (l : list A) :
  existsb f (map h l) = existsb (fun x => f (h x)) l.
Proof. induction l as [|x l IH]; simpl; [reflexivity | now rewrite IH]. Qed.

Lemma existsb_same {A : Type} (f h : A -> bool) (l : list A) :
  (forall x, f x = h x) -> existsb f l = existsb h l.
Proof.
  intros H. induction l as [|x l IH]; simpl; [reflexivity | now rewrite H, IH].
Qed.

Lemma has_edge_add_edge (g : DiGraph) (u v : string) (w : Z) (a b : string) :
  has_edge (add_edge g u v w) a b
  = has_edge g a b || (String.eqb u a && String.eqb v b).
Proof.
  unfold add_edge.
  destruct (has_edge (add_node (add_node g u) v) u v) eqn:E;
    unfold has_edge in *; simpl; rewrite !edges_add_node in *.
  - rewrite existsb_map_compose.
    assert (Heq : forall e,
              (String.eqb (src (if String.eqb (src e) u && String.eqb (dst e) v
                                then (u, v, w) else e)) a
               && String.eqb (dst (if String.eqb (src e) u && String.eqb (dst e) v
                                   then (u, v, w) else e)) b)
              = (String.eqb (src e) a && String.eqb (dst e) b)).
    { intros e. destruct (String.eqb (src e) u && String.eqb (dst e) v) eqn:Ee;
        [|reflexivity].
      apply andb_true_iff in Ee. destruct Ee as [E1 E2].
      apply String.eqb_eq in E1, E2. now rewrite E1, E2. }
    rewrite (existsb_same _ _ _ Heq).
    destruct (String.eqb u a && String.eqb v b) eqn:Eab.
    + apply andb_true_iff in Eab. destruct Eab as [E1 E2].
      apply String.eqb_eq in E1, E2. subst a b. rewrite E. reflexivity.
    + now rewrite orb_false_r.
  - rewrite existsb_app. simpl. now rewrite orb_false_r.
Qed.

Lemma graph_of_edges_from (es : list edge) (g : DiGraph) :
  let g' := fold_left (fun g e => add_edge g (src e) (dst e) (weight e)) es g in
  (NoDup (nodes g) -> NoDup (nodes g'))
  /\ (forall n, In n (nodes g')
                <-> In n (nodes g) \/ exists e, In e es /\ (n = src e \/ n = dst e))
  /\ (forall e, In e (edges g') -> In e (edges g) \/ In e es)
  /\ (forall a b, has_edge g' a b
                  = has_edge g a b
                    || existsb (fun e => String.eqb (src e) a && String.eqb (dst e) b) es).
Proof.
  revert g. induction es as [|e es IH]; intros g; simpl.
  - split; [auto|]. split; [|split].
    + intros n. split; [auto|]. intros [H|[e [[] _]]]. exact H.
    + auto.
    + intros a b. now rewrite orb_false_r.
  - destruct (IH (add_edge g (src e) (dst e) (weight e))) as [H1 [H2 [H3 H4]]].
    split; [|split; [|split]].
    + intros H. apply H1. now apply NoDup_add_edge.
    + intros n. rewrite H2, nodes_add_edge. split.
      * intros [[H|[H|H]]|[e' [He' H]]]; eauto 6.
      * intros [H|[e' [[<-|He'] H]]]; [tauto | tauto | eauto].
    + intros e' He'. destruct (H3 e' He') as [H|H]; [|auto].
      apply edges_add_edge in H. destruct H as [H| ->]; [auto|].
      right. left. now destruct e as [[u v] w].
    + intros a b. rewrite H4, has_edge_add_edge. now rewrite orb_assoc.
Qed.

Lemma dict_get_In (d : kmer_dict) (k : string) (c : Z) :
  NoDup (map fst d) -> In (k, c) d -> dict_get d k = c.
Proof.
  induction d as [|[a x] d IH]; simpl; intros Hnd Hin; [contradiction|].
  inversion Hnd as [|? ? Hnotin Hnd']; subst.
  destruct Hin as [[= -> ->]|Hin].
  - now rewrite String.eqb_refl.
  - destruct (String.eqb a k) eqn:E; [|auto].
    apply String.eqb_eq in E. subst a. exfalso. apply Hnotin.
    apply in_map_iff. exists (k, c). auto.
Qed.

Lemma dict_get_absent (d : kmer_dict) (k : string) :
  ~ In k (map fst d) -> dict_get d k = 0.
Proof.
  induction d as [|[a x] d IH]; simpl; intros H; [reflexivity|].
  destruct (String.eqb a k) eqn:E.
  - apply String.eqb_eq in E. tauto.
  - apply IH. tauto.
Qed.

Lemma count_kmer_positive (d : kmer_dict) (k : string) :
  Forall (fun kc => 1 <= snd kc) d -> Forall (fun kc => 1 <= snd kc) (count_kmer d k).
Proof.
  induction 1 as [|[a c] d Hc Hd IH]; simpl.
  - repeat constructor. simpl. lia.
  - destruct (String.eqb a k); constructor; simpl in *; auto. lia.
Qed.

Lemma build_kmer_dict_positive (reads : list string) (kmer_size : Z) :
  Forall (fun kc => 1 <= snd kc) (build_kmer_dict reads kmer_size).
Proof.
  unfold build_kmer_dict.
  assert (G : forall kmers d, Forall (fun kc => 1 <= snd kc) d ->
              Forall (fun kc => 1 <= snd kc) (fold_left count_kmer kmers d)).
  { induction kmers as [|k kmers IH]; intros d H; simpl;
      auto using count_kmer_positive. }
  assert (G' : forall d, Forall (fun kc => 1 <= snd kc) d ->
              Forall (fun kc => 1 <= snd kc)
                (fold_left (fun d read =>
                              fold_left count_kmer (cut_kmer read kmer_size) d)
                           reads d)).
  { induction reads as [|r reads IH]; intros d H; simpl; auto. }
  apply G'. constructor.
Qed.

(** The entries of the dictionary are the k-mers that occur, each with
    its number of occurrences. *)
Lemma build_kmer_dict_entries (reads : list string) (kmer_size : Z)
    (kmer : string) (c : Z) :
  In (kmer, c) (build_kmer_dict reads kmer_size)
  <-> In kmer (all_kmers reads kmer_size)
      /\ c = Z.of_nat (count_occ string_dec (all_kmers reads kmer_size) kmer).
Proof.
  destruct (build_kmer_dict_counts reads kmer_size) as [Hnd Hget].
  pose proof (build_kmer_dict_positive reads kmer_size) as Hpos.
  rewrite Forall_forall in Hpos. split.
  - intros Hin. pose proof (dict_get_In _ _ _ Hnd Hin) as Hc.
    rewrite Hget in Hc. specialize (Hpos _ Hin). simpl in Hpos.
    split; [|congruence].
    apply (count_occ_In string_dec). lia.
  - intros [Hin ->]. apply (count_occ_In string_dec) in Hin.
    destruct (in_dec string_dec kmer (map fst (build_kmer_dict reads kmer_size)))
      as [Hk|Hk].
    + apply in_map_iff in Hk. destruct Hk as [[k c] [Hk Hkc]]. simpl in Hk. subst k.
      pose proof (dict_get_In _ _ _ Hnd Hkc) as Hc. rewrite Hget in Hc.
      now rewrite Hc.
    + apply dict_get_absent in Hk. rewrite Hget in Hk. lia.
Qed.

(** X5: the graph [build_graph] returns lists each node once, its edges
    join nodes of the graph, and its nodes are exactly the prefixes and
    the suffixes of the keys of the dictionary. *)
Theorem build_graph_nodes (d : kmer_dict) :
  NoDup (nodes (build_graph d))
  /\ well_formed (build_graph d)
  /\ forall n, In n (nodes (build_graph d))
               <-> exists kc, In kc d /\ (n = src (kmer_edge kc) \/ n = dst (kmer_edge kc)).
Proof.
  rewrite build_graph_graph_of_edges.
  destruct (graph_of_edges_from (map kmer_edge d) Nx.empty) as [H1 [H2 _]].
  split; [apply H1; constructor|].
  split; [apply well_formed_graph_of_edges|].
  intros n. unfold graph_of_edges. rewrite H2. simpl. split.
  - intros [[]|[e [He H]]]. apply in_map_iff in He. destruct He as [kc [<- Hkc]]. eauto.
  - intros [kc [Hkc H]]. right. exists (kmer_edge kc). split; [|exact H].
    now apply in_map.
Qed.

(** X6: in the graph built from the reads, every k-mer that [cut_kmer]
    yields has its edge, from its prefix to its suffix; and every edge
    is the edge of a k-mer that occurs, weighted by the number of
    occurrences of that k-mer, hence by at least 1. *)
Theorem build_graph_of_reads (reads : list string) (kmer_size : Z) :
  (forall kmer, In kmer (all_kmers reads kmer_size) ->
     has_edge (build_graph (build_kmer_dict reads kmer_size))
              (src (kmer_edge (kmer, 0))) (dst (kmer_edge (kmer, 0))) = true)
  /\ (forall e, In e (edges (build_graph (build_kmer_dict reads kmer_size))) ->
        1 <= weight e
        /\ exists kmer,
             In kmer (all_kmers reads kmer_size)
             /\ e = kmer_edge (kmer, Z.of_nat (count_occ string_dec
                                                 (all_kmers reads kmer_size) kmer))).
Proof.
  rewrite build_graph_graph_of_edges.
  destruct (graph_of_edges_from
              (map kmer_edge (build_kmer_dict reads kmer_size)) Nx.empty)
    as [_ [_ [H3 H4]]].
  split.
  - intros kmer Hin. unfold graph_of_edges. rewrite H4. simpl.
    apply existsb_exists.
    exists (kmer_edge (kmer, Z.of_nat (count_occ string_dec
                                         (all_kmers reads kmer_size) kmer))).
    split.
    + apply in_map. apply build_kmer_dict_entries. auto.
    + unfold kmer_edge, src, dst. simpl. now rewrite !String.eqb_refl.
  - intros e He. unfold graph_of_edges in He. apply H3 in He.
    destruct He as [[]|He]. apply in_map_iff in He.
    destruct He as [[kmer c] [<- Hkc]].
    apply build_kmer_dict_entries in Hkc. destruct Hkc as [Hin ->].
    split; [|eauto].
    apply (count_occ_In string_dec) in Hin. unfold kmer_edge, weight. simpl. lia.
Qed.

Lemma build_graph_of_reads_witness :
  has_edge (build_graph (build_kmer_dict ["ACGTACGT"] 4)) "ACG" "CGT" = true
  /\ (1 <= weight ("ACG", "CGT", 2)
      /\ exists kmer,
           In kmer (all_kmers ["ACGTACGT"] 4)
           /\ ("ACG", "CGT", 2)
              = kmer_edge (kmer, Z.of_nat (count_occ string_dec
                                             (all_kmers ["ACGTACGT"] 4) kmer))).
Proof.
  split.
  - apply (proj1 (build_graph_of_reads ["ACGTACGT"] 4) "ACGT").
    vm_compute. left. reflexivity.
  - apply (proj2 (build_graph_of_reads ["ACGTACGT"] 4) ("ACG", "CGT", 2)).
    vm_compute. left. reflexivity.
Defined.

(** ** The simplifiers on graphs without branching, with a cycle, and
    without progress *)

Section Simplifiers.

Variable randint : Z -> Z -> Z.
Variable pick : string -> list string -> string.

Lemma scan_n_no_join (g : DiGraph) (ns : list string) (st : bubble_scan) :
  (forall n, In n ns -> (List.length (predecessors g n) <= 1)%nat) ->
  bubble st = false -> scan_n pick g ns st = Ok st.
Proof.
  induction ns as [|n ns IH]; intros H Hb; simpl; [reflexivity|].
  assert (E : (1 <? List.length (predecessors g n))%nat = false).
  { apply Nat.ltb_ge. apply H. now left. }
  rewrite E, Hb. apply IH; [|exact Hb]. intros n' Hn'. apply H. now right.
Qed.

Lemma simplify_bubbles_no_join (g : DiGraph) (depth : nat) :
  (forall n, In n (nodes g) -> (List.length (predecessors g n) <= 1)%nat) ->
  simplify_bubbles randint pick (S depth) g = Returns g.
Proof.
  intros H. simpl. rewrite scan_n_no_join; auto.
Qed.

Lemma solve_entry_tips_no_join (g : DiGraph) (depth : nat) (ns : list string) :
  (forall n, In n (nodes g) -> (List.length (predecessors g n) <= 1)%nat) ->
  nodes g <> [] -> solve_entry_tips randint (S depth) g ns = Returns g.
Proof.
  intros H Hne. simpl. rewrite entry_scan_none.
  - destruct (nodes g); [congruence | reflexivity].
  - intros n start Hn Hp. apply Nat.ltb_lt in Hp. specialize (H n Hn). lia.
Qed.

Lemma solve_out_tips_no_fork (g : DiGraph) (depth : nat) (ns : list string) :
  (forall n, In n (nodes g) -> (List.length (successors g n) <= 1)%nat) ->
  nodes g <> [] -> solve_out_tips randint (S depth) g ns = Returns g.
Proof.
  intros H Hne. simpl. rewrite out_scan_none.
  - destruct (nodes g); [congruence | reflexivity].
  - intros n end_ Hn Hp. apply Nat.ltb_lt in Hp. specialize (H n Hn). lia.
Qed.

(** X7: a graph in which no node has more than one direct predecessor
    is returned unchanged by [simplify_bubbles], with or without cycles,
    and, when it has a node, by [solve_entry_tips] for any starting
    nodes; a graph with a node in which no node has more than one direct
    successor is returned unchanged by [solve_out_tips] for any ending
    nodes. *)
Theorem simplifiers_without_branching (g : DiGraph) (depth : nat)
    (ns : list string) :
  ((forall n, In n (nodes g) -> (List.length (predecessors g n) <= 1)%nat) ->
   simplify_bubbles randint pick (S depth) g = Returns g
   /\ (nodes g <> [] -> solve_entry_tips randint (S depth) g ns = Returns g))
  /\ ((forall n, In n (nodes g) -> (List.length (successors g n) <= 1)%nat) ->
      nodes g <> [] -> solve_out_tips randint (S depth) g ns = Returns g).
Proof.
  split.
  - intros H. split.
    + now apply simplify_bubbles_no_join.
    + intros Hne. now apply solve_entry_tips_no_join.
  - intros H Hne. now apply solve_out_tips_no_fork.
Qed.

Lemma scan_i_on_cycle (g : DiGraph) (preds : list string) (st : bubble_scan) :
  is_directed_acyclic_graph g = false ->
  (1 < List.length preds)%nat -> scan_i pick g preds st = Raise NetworkXError.
Proof.
  intros Hdag Hlen. destruct preds as [|i [|j rest]]; try (simpl in Hlen; lia).
  simpl. unfold lowest_common_ancestor. rewrite Hdag. reflexivity.
Qed.

Lemma scan_n_on_cycle (g : DiGraph) (ns : list string) (st : bubble_scan) :
  is_directed_acyclic_graph g = false ->
  (exists n, In n ns /\ (1 < List.length (predecessors g n))%nat) ->
  bubble st = false -> scan_n pick g ns st = Raise NetworkXError.
Proof.
  intros Hdag. revert st. induction ns as [|n ns IH]; intros st [m [Hm Hlen]] Hb.
  - contradiction.
  - simpl. destruct (1 <? List.length (predecessors g n))%nat eqn:E.
    + apply Nat.ltb_lt in E. rewrite scan_i_on_cycle; auto.
    + rewrite Hb. apply IH; [|exact Hb].
      destruct Hm as [->|Hm]; [|eauto].
      apply Nat.ltb_ge in E. lia.
Qed.

(** X8: on a graph that has a cycle and a node with more than one
    direct predecessor, [simplify_bubbles] raises the [NetworkXError] of
    the first lowest-common-ancestor query and leaves the graph as it
    is. *)
Theorem simplify_bubbles_on_cycle (g : DiGraph) (depth : nat) :
  is_directed_acyclic_graph g = false ->
  (exists n, In n (nodes g) /\ (1 < List.length (predecessors g n))%nat) ->
  simplify_bubbles randint pick (S depth) g = Raises NetworkXError g.
Proof.
  intros Hdag Hjoin. simpl. rewrite scan_n_on_cycle; auto.
Qed.

(** X9: when the scan of [simplify_bubbles] finds a bubble and
    [solve_bubble] returns the graph with nothing removed, the recursive
    call meets the same graph again: no depth of recursion is enough,
    and the call ends in [RecursionError] with the graph unchanged. *)
Theorem simplify_bubbles_without_progress (g : DiGraph) (st : bubble_scan)
    (n : string) :
  scan_n pick g (nodes g) (mkScan false None None) = Ok st ->
  bubble st = true -> noeud_n st = Some n ->
  solve_bubble randint g (ancestor_node st) n = Returns g ->
  forall depth, simplify_bubbles randint pick depth g = Raises RecursionError g.
Proof.
  intros Hscan Hb Hn Hsolve depth.
  induction depth as [|depth IH]; simpl; [reflexivity|].
  rewrite Hscan, Hb, Hn, Hsolve. exact IH.
Qed.

End Simplifiers.

Lemma simplifiers_without_branching_witness :
  (simplify_bubbles (draw 0) first_pick 1 chain_graph = Returns chain_graph
   /\ (nodes chain_graph <> [] ->
       solve_entry_tips (draw 0) 1 chain_graph ["AC"] = Returns chain_graph))
  /\ solve_out_tips (draw 0) 1 chain_graph ["GT"] = Returns chain_graph.
Proof.
  split.
  - apply (proj1 (simplifiers_without_branching (draw 0) first_pick chain_graph 0
                    ["AC"])).
    intros n [<-|[<-|[<-|[]]]]; vm_compute; lia.
  - apply (proj2 (simplifiers_without_branching (draw 0) first_pick chain_graph 0
                    ["GT"])).
    + intros n [<-|[<-|[<-|[]]]]; vm_compute; lia.
    + discriminate.
Defined.

Lemma simplify_bubbles_on_cycle_witness :
  simplify_bubbles (draw 0) first_pick 1 cycle_graph = Raises NetworkXError cycle_graph.
Proof.
  apply (simplify_bubbles_on_cycle (draw 0) first_pick cycle_graph 0).
  - reflexivity.
  - exists "N". split; [vm_compute; tauto | vm_compute; lia].
Defined.

Lemma simplify_bubbles_without_progress_witness :
  simplify_bubbles (draw 0) first_pick 1000 shortcut_graph
  = Raises RecursionError shortcut_graph.
Proof.
  apply (simplify_bubbles_without_progress (draw 0) first_pick shortcut_graph
           (mkScan true (Some "A") (Some "N")) "N"); reflexivity.
Defined.

(** ** What the path selector raises, and what path removal keeps *)

Lemma In_removelast {A : Type} (x : A) (l : list A) :
  In x (removelast l) -> In x l.
Proof.
  induction l as [|a l IH]; simpl; [auto|].
  destruct l as [|b l]; [intros []|]. intros [->|H]; auto.
Qed.

Lemma last_In {A : Type} (l : list A) (d : A) : l <> [] -> In (last l d) l.
Proof.
  induction l as [|a l IH]; [congruence|]. intros _.
  destruct l as [|b l]; [now left|]. right. apply IH. discriminate.
Qed.

Lemma last_not_in_removelast {A : Type} (l : list A) (d : A) :
  NoDup l -> l <> [] -> ~ In (last l d) (removelast l).
Proof.
  intros Hnd Hne Hin.
  rewrite (app_removelast_last d Hne) in Hnd.
  apply NoDup_remove_2 in Hnd. rewrite app_nil_r in Hnd. contradiction.
Qed.

Lemma removelast_tl_incl {A : Type} (x : A) (l : list A) :
  In x (removelast (tl l)) -> In x (removelast l).
Proof.
  destruct l as [|a [|b l]]; simpl; auto.
Qed.

(** The nodes the flags select on a path that repeats no node: never the
    first unless the entry flag is set, never the last unless the sink
    flag is set. *)
Lemma removed_nodes_ends (p : list string) (s t : string) (de ds : bool) :
  hd_error p = Some s -> last p s = t -> NoDup p ->
  (de = false -> ~ In s (removed_nodes p de ds))
  /\ (ds = false -> ~ In t (removed_nodes p de ds)).
Proof.
  intros Hhd Hlast Hnd. destruct p as [|x q]; [discriminate|].
  injection Hhd as ->. apply NoDup_cons_iff in Hnd as Hs. destruct Hs as [Hs _].
  assert (Ht : ~ In t (removelast (s :: q))).
  { rewrite <- Hlast. apply last_not_in_removelast; [exact Hnd | discriminate]. }
  unfold removed_nodes. split; intros ->.
  - destruct ds; simpl andb; cbv iota.
    + rewrite list_slice_tail. exact Hs.
    + rewrite list_slice_inner. simpl tl. intros H. apply Hs.
      now apply In_removelast.
  - destruct de; simpl andb; cbv iota.
    + rewrite list_slice_front. exact Ht.
    + rewrite list_slice_inner. intros H. apply Ht.
      now apply removelast_tl_incl.
Qed.

Lemma has_node_without (g : DiGraph) (r : list string) (n : string) :
  has_node (without g r) n = has_node g n && negb (mem n r).
Proof.
  unfold has_node, without. simpl.
  destruct (mem n (filter (fun m => negb (mem m r)) (nodes g))) eqn:E.
  - apply mem_In, filter_In in E. destruct E as [E1 E2].
    apply mem_In in E1. now rewrite E1, E2.
  - destruct (mem n (nodes g)) eqn:E1; [|reflexivity].
    destruct (mem n r) eqn:E2; [reflexivity|].
    apply mem_In in E1. apply mem_false in E. exfalso. apply E.
    apply filter_In. now rewrite E2.
Qed.

Lemma removed_by_ends (path_list : list (list string)) (s t : string)
    (de ds : bool) :
  (forall p, In p path_list -> hd_error p = Some s /\ last p s = t /\ NoDup p) ->
  (de = false -> mem s (removed_by path_list de ds) = false)
  /\ (ds = false -> mem t (removed_by path_list de ds) = false).
Proof.
  intros Hp. unfold removed_by.
  split; intros Hf; apply mem_false; intros Hin; apply in_flat_map in Hin;
    destruct Hin as [p [Hin Hrem]]; destruct (Hp p Hin) as [H1 [H2 H3]];
    destruct (removed_nodes_ends p s t de ds H1 H2 H3) as [Hs Ht];
    first [exact (Hs Hf Hrem) | exact (Ht Hf Hrem)].
Qed.

(** X10: over paths that all lead from [s] to [t] without repeating a
    node, [remove_paths] keeps [s] unless the entry flag is set and
    keeps [t] unless the sink flag is set. *)
Theorem remove_paths_keeps_ends (g : DiGraph) (path_list : list (list string))
    (s t : string) (de ds : bool) :
  (forall p, In p path_list -> hd_error p = Some s /\ last p s = t /\ NoDup p) ->
  (de = false -> has_node (remove_paths g path_list de ds) s = has_node g s)
  /\ (ds = false -> has_node (remove_paths g path_list de ds) t = has_node g t).
Proof.
  intros Hp. rewrite remove_paths_without, !has_node_without.
  destruct (removed_by_ends path_list s t de ds Hp) as [Gs Gt].
  split; intros Hf.
  - rewrite (Gs Hf). apply andb_true_r.
  - rewrite (Gt Hf). apply andb_true_r.
Qed.

Lemma remove_paths_keeps_ends_witness :
  has_node (remove_paths tie_graph tie_paths false false) "A" = has_node tie_graph "A"
  /\ has_node (remove_paths tie_graph tie_paths false false) "B" = has_node tie_graph "B".
Proof.
  pose proof (remove_paths_keeps_ends tie_graph tie_paths "A" "B" false false) as H.
  destruct H as [H1 H2].
  - intros p [<-|[<-|[<-|[]]]]; repeat split; try reflexivity;
      repeat constructor; simpl; intuition discriminate.
  - split; [apply H1 | apply H2]; reflexivity.
Defined.

Section SelectorErrors.

Variable randint : Z -> Z -> Z.

(** X11: [select_best_path] raises [StatisticsError] when it is given
    fewer than two weights, and, on a full tie, [ValueError] when the
    integer drawn is not equal to any of the weights; in both cases the
    graph and the list of paths are as they were. *)
Theorem select_best_path_raises (g : DiGraph) (path_list : list (list string))
    (path_length : list Z) (weight_avg_list : list Q) (de ds : bool) :
  ((List.length weight_avg_list < 2)%nat ->
   select_best_path randint g path_list path_length weight_avg_list de ds
   = (Raises StatisticsError g, path_list))
  /\ (Py.stdev_gt_0 weight_avg_list = Ok false ->
      Py.stdev_gt_0 (map inject_Z path_length) = Ok false ->
      (forall w, In w weight_avg_list ->
         ~ (w == inject_Z (randint 0 (Z.of_nat (List.length path_list))))%Q) ->
      select_best_path randint g path_list path_length weight_avg_list de ds
      = (Raises ValueError g, path_list)).
Proof.
  split.
  - intros Hlen. unfold select_best_path, kept_out, Py.stdev_gt_0.
    apply Nat.ltb_lt in Hlen. rewrite Hlen. reflexivity.
  - intros Hw Hl Hdraw. unfold select_best_path, kept_out.
    rewrite Hw. cbn [bind]. rewrite Hl. cbn [bind].
    rewrite index_absent; [reflexivity|].
    intros y Hy. apply not_true_is_false. intros H.
    apply Qeq_bool_iff in H. exact (Hdraw y Hy H).
Qed.





End SelectorErrors.

Lemma select_best_path_raises_witness :
  select_best_path (draw 0) tie_graph [["A"; "x1"; "B"]] [3] [1#1]%Q false false
  = (Raises StatisticsError tie_graph, [["A"; "x1"; "B"]])
  /\ select_best_path (draw 0) tie_graph tie_paths [3; 3; 3] [1#1; 1#1; 1#1]%Q
       false false
     = (Raises ValueError tie_graph, tie_paths).
Proof.
  split.
  - apply (proj1 (select_best_path_raises (draw 0) tie_graph [["A"; "x1"; "B"]]
                    [3] [1#1]%Q false false)).
    simpl. lia.
  - apply (proj2 (select_best_path_raises (draw 0) tie_graph tie_paths
                    [3; 3; 3] [1#1; 1#1; 1#1]%Q false false)).
    + reflexivity.
    + reflexivity.
    + intros w [<-|[<-|[<-|[]]]]; discriminate.
Defined.


(** ** What the contig extractor returns *)

Lemma contigs_of_paths_lengths (paths : list (list string)) :
  forall seq contigs contigs',
    Forall length_recorded contigs ->
    contigs_of_paths seq paths contigs = Ok contigs' ->
    Forall length_recorded contigs'.
Proof.
  induction paths as [|p paths IH]; intros seq contigs contigs' H; simpl.
  - now intros [= <-].
  - destruct (extend_seq seq p) as [seq'|e]; cbn [bind]; [|discriminate].
    apply IH. apply Forall_app. split; [exact H|]. repeat constructor.
Qed.

Lemma contigs_of_ends_lengths (g : DiGraph) (start : string)
    (ending_nodes : list string) :
  forall contigs contigs',
    Forall length_recorded contigs ->
    contigs_of_ends g start ending_nodes contigs = Ok contigs' ->
    Forall length_recorded contigs'.
Proof.
  induction ending_nodes as [|end_ rest IH]; intros contigs contigs' H; simpl.
  - now intros [= <-].
  - destruct (has_path g start end_) as [[|]|e]; cbn [bind]; [| |discriminate].
    + destruct (all_simple_paths g start end_) as [paths|e]; cbn [bind];
        [|discriminate].
      destruct (contigs_of_paths "" paths contigs) as [c1|e] eqn:E; cbn [bind];
        [|discriminate].
      apply IH. eapply contigs_of_paths_lengths; eauto.
    + now apply IH.
Qed.

Lemma contigs_of_starts_lengths (g : DiGraph)
    (starting_nodes ending_nodes : list string) :
  forall contigs contigs',
    Forall length_recorded contigs ->
    contigs_of_starts g starting_nodes ending_nodes contigs = Ok contigs' ->
    Forall length_recorded contigs'.
Proof.
  induction starting_nodes as [|start rest IH]; intros contigs contigs' H; simpl.
  - now intros [= <-].
  - destruct (contigs_of_ends g start ending_nodes contigs) as [c1|e] eqn:E;
      cbn [bind]; [|discriminate].
    apply IH. eapply contigs_of_ends_lengths; eauto.
Qed.

(** X13: in every pair [get_contigs] returns, the second component is
    the length of the first. *)
Theorem get_contigs_lengths (g : DiGraph) (starting_nodes ending_nodes : list string)
    (contigs : list (string * Z)) :
  get_contigs g starting_nodes ending_nodes = Ok contigs ->
  forall seq n, In (seq, n) contigs -> n = Z.of_nat (String.length seq).
Proof.
  intros H seq n Hin.
  assert (F : Forall length_recorded contigs).
  { eapply contigs_of_starts_lengths; [|exact H]. constructor. }
  rewrite Forall_forall in F. exact (F _ Hin).
Qed.

Lemma get_contigs_lengths_witness :
  10 = Z.of_nat (String.length "AXBYZAXCYZ").
Proof.
  apply (get_contigs_lengths two_path_graph ["AX"] ["YZ"]
           [("AXBYZ", 5); ("AXBYZAXCYZ", 10)]).
  - reflexivity.
  - right. left. reflexivity.
Defined.

Lemma contigs_of_ends_foreign_start (g : DiGraph) (start end_ : string)
    (rest : list string) (contigs : list (string * Z)) :
  has_node g start = false ->
  contigs_of_ends g start (end_ :: rest) contigs = Raise NodeNotFound.
Proof.
  intros H. simpl. unfold has_path. rewrite H. reflexivity.
Qed.

(** X14: without starting nodes or without ending nodes [get_contigs]
    returns no contig, whatever the graph; with both, a first starting
    node that is not in the graph makes it raise [NodeNotFound]. *)
Theorem get_contigs_edge_cases (g : DiGraph) (ns : list string) :
  get_contigs g [] ns = Ok []
  /\ get_contigs g ns [] = Ok []
  /\ forall start end_ starts ends,
       has_node g start = false ->
       get_contigs g (start :: starts) (end_ :: ends) = Raise NodeNotFound.
Proof.
  split; [reflexivity|]. split.
  - unfold get_contigs. induction ns as [|n ns IH]; simpl; auto.
  - intros start end_ starts ends H. unfold get_contigs. simpl.
    unfold has_path. rewrite H. reflexivity.
Qed.

Lemma get_contigs_edge_cases_witness :
  get_contigs chain_graph ["ZZ"] ["GT"] = Raise NodeNotFound.
Proof.
  apply (proj2 (proj2 (get_contigs_edge_cases chain_graph []))). reflexivity.
Defined.

(** X15: for one starting node and one ending node that it reaches,
    [get_contigs] returns one pair per simple path, in the order of the
    enumeration, and the sequence of the k-th pair is the concatenation
    of the contigs of the first k paths. *)
Theorem get_contigs_of_pair (g : DiGraph) (s t : string)
    (paths : list (list string)) (cs : list string) :
  has_path g s t = Ok true ->
  all_simple_paths g s t = Ok paths ->
  Forall2 (fun p c => contig_of_path p = Ok c) paths cs ->
  get_contigs g [s] [t]
  = Ok (map (fun seq => (seq, Z.of_nat (String.length seq))) (running_concat "" cs)).
Proof.
  intros Hp Ha Hc. unfold get_contigs. simpl. rewrite Hp. cbn [bind].
  rewrite Ha. cbn [bind]. rewrite (contigs_of_paths_running paths cs Hc). reflexivity.
Qed.

Lemma get_contigs_of_pair_witness :
  get_contigs two_path_graph ["AX"] ["YZ"]
  = Ok (map (fun seq => (seq, Z.of_nat (String.length seq)))
            (running_concat "" ["AXBYZ"; "AXCYZ"])).
Proof.
  apply (get_contigs_of_pair two_path_graph "AX" "YZ"
           [["AX"; "XB"; "BY"; "YZ"]; ["AX"; "XC"; "CY"; "YZ"]]).
  - reflexivity.
  - reflexivity.
  - repeat constructor.
Defined.

(** ** The graph of a chain of distinct nodes *)

Lemma chain_src (vs : list string) : map src (chain vs) = removelast vs.
Proof.
  induction vs as [|u vs IH]; [reflexivity|].
  destruct vs as [|v vs]; [reflexivity|].
  change (src (u, v, 1) :: map src (chain (v :: vs)) = u :: removelast (v :: vs)).
  now rewrite IH.
Qed.

Lemma chain_dst (vs : list string) : map dst (chain vs) = tl vs.
Proof.
  induction vs as [|u vs IH]; [reflexivity|].
  destruct vs as [|v vs]; [reflexivity|].
  change (dst (u, v, 1) :: map dst (chain (v :: vs)) = v :: vs).
  rewrite IH. reflexivity.
Qed.

Lemma chain_snoc (pre : list string) (u v : string) :
  chain (pre ++ [u; v]) = chain (pre ++ [u]) ++ [(u, v, 1)].
Proof.
  induction pre as [|a pre IH]; [reflexivity|].
  cbn [app]. destruct pre as [|b pre].
  - reflexivity.
  - cbn [app] in *. change (chain (a :: b :: ?l)) with ((a, b, 1) :: chain (b :: l)).
    rewrite IH. reflexivity.
Qed.

Lemma chain_app (pre : list string) (u : string) (rest : list string) :
  chain (pre ++ u :: rest) = chain (pre ++ [u]) ++ chain (u :: rest).
Proof.
  induction pre as [|a pre IH]; [reflexivity|].
  cbn [app]. destruct pre as [|b pre].
  - destruct rest; reflexivity.
  - cbn [app] in *. change (chain (a :: b :: ?l)) with ((a, b, 1) :: chain (b :: l)).
    rewrite IH. reflexivity.
Qed.

Lemma add_edge_chain (pre : list string) (u v : string) :
  ~ In v (pre ++ [u]) ->
  add_edge (mkDiGraph (pre ++ [u]) (chain (pre ++ [u]))) u v 1
  = mkDiGraph (pre ++ [u; v]) (chain (pre ++ [u; v])).
Proof.
  intros Hv. set (g := mkDiGraph (pre ++ [u]) (chain (pre ++ [u]))).
  assert (E1 : add_node g u = g).
  { unfold add_node.
    replace (has_node g u) with true; [reflexivity|].
    symmetry. apply mem_In. simpl. apply in_or_app. right. now left. }
  assert (E2 : add_node g v = mkDiGraph ((pre ++ [u]) ++ [v]) (chain (pre ++ [u]))).
  { unfold add_node.
    replace (has_node g v) with false; [reflexivity|].
    symmetry. now apply mem_false. }
  unfold add_edge. rewrite E1, E2. rewrite has_edge_absent.
  - simpl. rewrite chain_snoc, <- app_assoc. reflexivity.
  - simpl edges. intros Hin. apply in_map_iff in Hin.
    destruct Hin as [e [He Hin]]. apply Hv.
    assert (Hd : In (dst e) (map dst (chain (pre ++ [u]))))
      by now apply in_map.
    rewrite chain_dst in Hd. unfold endpoints in He. injection He as _ He.
    rewrite He in Hd. destruct (pre ++ [u]); [contradiction|]. now right.
Qed.

(** Adding the edges of a chain of distinct nodes one after the other
    gives the graph that lists the nodes and the edges in that order. *)
Lemma graph_of_edges_chain (vs : list string) :
  NoDup vs -> (2 <= List.length vs)%nat ->
  graph_of_edges (chain vs) = mkDiGraph vs (chain vs).
Proof.
  intros Hnd Hlen. destruct vs as [|v0 [|v1 rest]]; try (simpl in Hlen; lia).
  unfold graph_of_edges.
  assert (G : forall rest pre u,
             NoDup (pre ++ u :: rest) ->
             fold_left (fun g e => add_edge g (src e) (dst e) (weight e))
                       (chain (u :: rest))
                       (mkDiGraph (pre ++ [u]) (chain (pre ++ [u])))
             = mkDiGraph (pre ++ u :: rest) (chain (pre ++ u :: rest))).
  { clear. induction rest as [|v rest IH]; intros pre u Hnd.
    - reflexivity.
    - change (chain (u :: v :: rest)) with ((u, v, 1) :: chain (v :: rest)).
      cbn [fold_left src dst weight fst snd]. rewrite add_edge_chain.
      + replace (pre ++ [u; v]) with ((pre ++ [u]) ++ [v]) by now rewrite <- app_assoc.
        rewrite IH; rewrite <- app_assoc; [reflexivity | exact Hnd].
      + replace (pre ++ u :: v :: rest) with ((pre ++ [u]) ++ v :: rest) in Hnd
          by now rewrite <- app_assoc.
        apply NoDup_remove_2 in Hnd. intros H. apply Hnd. apply in_or_app. now left. }
  change (chain (v0 :: v1 :: rest)) with ((v0, v1, 1) :: chain (v1 :: rest)).
  cbn [fold_left src dst weight fst snd].
  assert (E : add_edge Nx.empty v0 v1 1 = mkDiGraph ([v0] ++ [v1]) (chain ([v0] ++ [v1]))).
  { unfold add_edge, add_node, has_node, Nx.empty. simpl.
    assert (Hne : String.eqb v1 v0 = false).
    { apply String.eqb_neq. intros ->. apply NoDup_cons_iff in Hnd.
      destruct Hnd as [H _]. apply H. now left. }
    rewrite Hne. simpl. reflexivity. }
  rewrite E. apply (G rest [v0] v1). exact Hnd.
Qed.

(** ** Sources, sinks and paths of a chain *)

Lemma filter_none {A : Type} (p : A -> bool) (l : list A) :
  (forall x, In x l -> p x = false) -> filter p l = [].
Proof.
  induction l as [|a l IH]; intros H; simpl; [reflexivity|].
  rewrite (H a (in_eq _ _)). apply IH. intros x Hx. apply H. now right.
Qed.

Lemma filter_unique_length {A : Type} (f : A -> string) (x : string) (l : list A) :
  NoDup (map f l) ->
  (List.length (filter (fun e => String.eqb (f e) x) l) <= 1)%nat.
Proof.
  induction l as [|a l IH]; simpl; intros Hnd; [lia|].
  inversion Hnd as [|? ? Hnotin Hnd']; subst.
  destruct (String.eqb (f a) x) eqn:E; [|auto].
  apply String.eqb_eq in E. rewrite filter_none; [simpl; lia|].
  intros y Hy. apply String.eqb_neq. intros Hfy. apply Hnotin.
  rewrite E, <- Hfy. now apply in_map.
Qed.

Section ChainGraph.

Variable vs : list string.
Hypothesis vs_distinct : NoDup vs.

Local Abbreviation g := (mkDiGraph vs (chain vs)).

Lemma chain_predecessors_length (x : string) :
  (List.length (predecessors g x) <= 1)%nat.
Proof.
  unfold predecessors. rewrite length_map. apply filter_unique_length.
  simpl. rewrite chain_dst. pose proof vs_distinct as Hnd.
  destruct vs as [|v l]; [constructor|].
  now apply NoDup_cons_iff in Hnd.
Qed.

Lemma chain_successors_length (x : string) :
  (List.length (successors g x) <= 1)%nat.
Proof.
  unfold successors. rewrite length_map. apply filter_unique_length.
  simpl. rewrite chain_src.
  pose proof vs_distinct as Hnd.
  destruct vs as [|v l]; [constructor|].
  rewrite (app_removelast_last v (l := v :: l)) in Hnd by discriminate.
  apply NoDup_remove_1 in Hnd. now rewrite app_nil_r in Hnd.
Qed.

Lemma chain_has_predecessor (x : string) :
  In x (tl vs) -> predecessors g x <> [].
Proof.
  intros Hx. rewrite <- chain_dst in Hx. apply in_map_iff in Hx.
  destruct Hx as [e [He Hin]]. unfold predecessors. intros Hnil.
  assert (In (src e) (map src (filter (fun e' => String.eqb (dst e') x) (edges g)))).
  { apply in_map. apply filter_In. split; [exact Hin|]. now apply String.eqb_eq. }
  rewrite Hnil in H. contradiction.
Qed.

Lemma chain_has_successor (x : string) :
  In x (removelast vs) -> successors g x <> [].
Proof.
  intros Hx. rewrite <- chain_src in Hx. apply in_map_iff in Hx.
  destruct Hx as [e [He Hin]]. unfold successors. intros Hnil.
  assert (In (dst e) (map dst (filter (fun e' => String.eqb (src e') x) (edges g)))).
  { apply in_map. apply filter_In. split; [exact Hin|]. now apply String.eqb_eq. }
  rewrite Hnil in H. contradiction.
Qed.

Lemma chain_no_predecessor (x : string) :
  ~ In x (tl vs) -> predecessors g x = [].
Proof.
  intros Hx. unfold predecessors. rewrite filter_none; [reflexivity|].
  intros e He. apply String.eqb_neq. intros Hd. apply Hx.
  rewrite <- chain_dst, <- Hd. now apply in_map.
Qed.

Lemma chain_no_successor (x : string) :
  ~ In x (removelast vs) -> successors g x = [].
Proof.
  intros Hx. unfold successors. rewrite filter_none; [reflexivity|].
  intros e He. apply String.eqb_neq. intros Hd. apply Hx.
  rewrite <- chain_src, <- Hd. now apply in_map.
Qed.

Lemma chain_starting_nodes (v0 : string) (rest : list string) :
  vs = v0 :: rest -> get_starting_nodes g = [v0].
Proof.
  intros E. unfold get_starting_nodes. simpl nodes. rewrite E at 1. simpl filter.
  rewrite chain_no_predecessor.
  - simpl. rewrite filter_none; [reflexivity|].
    intros x Hx. apply Nat.eqb_neq. intros Hlen.
    apply (chain_has_predecessor x); [rewrite E; exact Hx|].
    now apply length_zero_iff_nil.
  - rewrite E. simpl. rewrite E in vs_distinct.
    now apply NoDup_cons_iff in vs_distinct.
Qed.

Lemma chain_sink_nodes (v0 : string) (rest : list string) :
  vs = v0 :: rest -> get_sink_nodes g = [last vs v0].
Proof.
  intros E. unfold get_sink_nodes. simpl nodes.
  assert (Hne : vs <> []) by (rewrite E; discriminate).
  rewrite (app_removelast_last v0 Hne) at 1. rewrite filter_app.
  rewrite filter_none.
  - simpl. rewrite chain_no_successor; [reflexivity|].
    now apply last_not_in_removelast.
  - intros x Hx. apply Nat.eqb_neq. intros Hlen.
    apply (chain_has_successor x Hx). now apply length_zero_iff_nil.
Qed.

Lemma chain_successor_at (pre : list string) (u v : string) (rest : list string) :
  vs = pre ++ u :: v :: rest -> successors g u = [v].
Proof.
  intros E. unfold successors. simpl edges. rewrite E, chain_app.
  rewrite filter_app, map_app.
  assert (Hnd : NoDup (pre ++ u :: v :: rest)) by now rewrite <- E.
  rewrite filter_none.
  - change (chain (u :: v :: rest)) with ((u, v, 1) :: chain (v :: rest)).
    simpl. rewrite String.eqb_refl. simpl. rewrite filter_none; [reflexivity|].
    intros e He. apply String.eqb_neq. intros Hs.
    apply NoDup_remove_2 in Hnd. apply Hnd. apply in_or_app. right.
    apply In_removelast. rewrite <- chain_src, <- Hs. now apply in_map.
  - intros e He. apply String.eqb_neq. intros Hs.
    apply NoDup_remove_2 in Hnd. apply Hnd. apply in_or_app. left.
    assert (H : In (src e) (removelast (pre ++ [u])))
      by (rewrite <- chain_src; now apply in_map).
    rewrite removelast_last in H. now rewrite <- Hs.
Qed.

(** From a node of the chain there is one simple path to its last node:
    the rest of the chain. *)
Lemma chain_extend (rest : list string) :
  forall pre u budget,
    vs = pre ++ u :: rest -> rest <> [] -> (List.length rest <= budget)%nat ->
    extend budget g (last (u :: rest) u) pre u = [vs].
Proof.
  induction rest as [|v rest IH]; intros pre u budget E Hne Hb; [congruence|].
  destruct budget as [|b]; [simpl in Hb; lia|].
  assert (Hnd : NoDup (pre ++ u :: v :: rest)) by now rewrite <- E.
  cbn [extend]. rewrite (chain_successor_at pre u v rest E). cbn [flat_map].
  rewrite app_nil_r.
  assert (Hfresh : mem v (pre ++ [u]) = false).
  { apply mem_false. intros Hin.
    replace (pre ++ u :: v :: rest) with ((pre ++ [u]) ++ v :: rest) in Hnd
      by now rewrite <- app_assoc.
    apply NoDup_remove_2 in Hnd. apply Hnd. apply in_or_app. now left. }
  rewrite Hfresh. destruct rest as [|x rest].
  - cbn [last]. rewrite String.eqb_refl. rewrite E. reflexivity.
  - change (last (u :: v :: x :: rest) u) with (last (v :: x :: rest) u).
    rewrite (last_cons_indep v (x :: rest) u v).
    assert (Hvt : String.eqb v (last (v :: x :: rest) v) = false).
    { apply String.eqb_neq. intros Hv.
      apply NoDup_app_remove_l in Hnd. apply NoDup_cons_iff in Hnd.
      destruct Hnd as [_ Hnd]. apply NoDup_cons_iff in Hnd.
      destruct Hnd as [Hnotin _]. apply Hnotin. rewrite Hv at 1.
      change (last (v :: x :: rest) v) with (last (x :: rest) v).
      apply last_In. discriminate. }
    rewrite Hvt. apply IH.
    + rewrite E, <- app_assoc. reflexivity.
    + discriminate.
    + simpl in *. lia.
Qed.

Lemma chain_all_simple_paths (v0 v1 : string) (rest : list string) :
  vs = v0 :: v1 :: rest ->
  all_simple_paths g v0 (last vs v0) = Ok [vs].
Proof.
  intros E. unfold all_simple_paths.
  assert (Hin : has_node g v0 = true).
  { apply mem_In. simpl. rewrite E. now left. }
  rewrite Hin. simpl negb. cbv iota.
  assert (Hne : String.eqb v0 (last vs v0) = false).
  { apply String.eqb_neq. intros Hv. rewrite E in vs_distinct, Hv.
    apply NoDup_cons_iff in vs_distinct. destruct vs_distinct as [Hnotin _].
    apply Hnotin. rewrite Hv at 1.
    change (last (v0 :: v1 :: rest) v0) with (last (v1 :: rest) v0).
    apply last_In. discriminate. }
  rewrite Hne. f_equal.
  replace (last vs v0) with (last (v0 :: v1 :: rest) v0) by now rewrite E.
  apply (chain_extend (v1 :: rest) [] v0).
  - exact E.
  - discriminate.
  - simpl nodes. rewrite E. simpl. lia.
Qed.

Lemma chain_has_path (v0 v1 : string) (rest : list string) :
  vs = v0 :: v1 :: rest -> has_path g v0 (last vs v0) = Ok true.
Proof.
  intros E. unfold has_path.
  assert (H0 : has_node g v0 = true).
  { apply mem_In. simpl. rewrite E. now left. }
  assert (H1 : has_node g (last vs v0) = true).
  { apply mem_In. simpl. apply last_In. rewrite E. discriminate. }
  rewrite H0, H1. simpl. f_equal.
  assert (Hpath : is_path g vs).
  { destruct (extend_sound g (last (v0 :: v1 :: rest) v0) (List.length rest + 1)
                [] v0 vs) as [Hpath _].
    - repeat constructor. intros [].
    - exact I.
    - rewrite (chain_extend (v1 :: rest) [] v0);
        [now left | exact E | discriminate | simpl; lia].
    - exact Hpath. }
  unfold reaches. rewrite E in Hpath.
  pose proof (is_path_reach_within _ (v1 :: rest) v0 Hpath) as Hr.
  rewrite E. eapply reach_within_le; [|exact Hr].
  simpl. lia.
Qed.

End ChainGraph.

(** ** One read without a repeated (k-1)-mer *)

Lemma kmer_edge_window (s : string) (i k : nat) (c : Z) :
  (1 <= k)%nat -> (i + k <= String.length s)%nat ->
  kmer_edge (substring i k s, c)
  = (substring i (k - 1) s, substring (S i) (k - 1) s, c).
Proof.
  intros Hk Hik. unfold kmer_edge. cbn [fst snd].
  rewrite str_slice_prefix, str_slice_suffix, substring_length by exact Hik.
  rewrite !substring_substring by lia.
  repeat f_equal; lia.
Qed.

Lemma chain_map_seq (f : nat -> string) (m : nat) :
  forall a, chain (map f (seq a (S m)))
            = map (fun i => (f i, f (S i), 1)) (seq a m).
Proof.
  induction m as [|m IH]; intros a; [reflexivity|].
  change (seq a (S (S m))) with (a :: seq (S a) (S m)).
  cbn [map]. specialize (IH (S a)).
  change (seq (S a) (S m)) with (S a :: seq (S (S a)) m) in *.
  cbn [map] in *. change (chain (f a :: f (S a) :: ?l))
    with ((f a, f (S a), 1) :: chain (f (S a) :: l)).
  rewrite IH. reflexivity.
Qed.

Lemma count_kmer_fresh (d : kmer_dict) (k : string) :
  ~ In k (map fst d) -> count_kmer d k = d ++ [(k, 1)].
Proof.
  induction d as [|[a c] d IH]; simpl; intros H; [reflexivity|].
  destruct (String.eqb a k) eqn:E.
  - apply String.eqb_eq in E. tauto.
  - rewrite IH by tauto. reflexivity.
Qed.

Lemma count_kmers_fresh (kmers : list string) :
  forall d,
    NoDup (map fst d ++ kmers) ->
    fold_left count_kmer kmers d = d ++ map (fun k => (k, 1)) kmers.
Proof.
  induction kmers as [|k kmers IH]; intros d Hnd; simpl.
  - now rewrite app_nil_r.
  - rewrite count_kmer_fresh.
    + rewrite IH.
      * now rewrite <- app_assoc.
      * rewrite map_app. simpl. now rewrite <- app_assoc.
    + apply NoDup_remove_2 in Hnd. intros H. apply Hnd. apply in_or_app. now left.
Qed.

Lemma substring_none (s : string) (a : nat) : substring a 0 s = "".
Proof.
  revert a. induction s as [|x s IH]; intros [|a]; simpl; auto.
Qed.

(** The last character of a window, appended to what precedes it in the
    string, gives the string up to the end of the window. *)
Lemma window_last_char (s : string) :
  forall a w, (1 <= w)%nat -> (a + w <= String.length s)%nat ->
    exists c, Py.str_last (substring a w s) = Ok c
              /\ (substring 0 (a + w - 1) s ++ String c "")%string
                 = substring 0 (a + w) s.
Proof.
  induction s as [|x s IH]; intros a w Hw Hlen; [simpl in Hlen; lia|].
  destruct a as [|a].
  - destruct w as [|w]; [lia|]. destruct w as [|w].
    + exists x. simpl. rewrite substring_none. split; reflexivity.
    + destruct (IH 0%nat (S w)) as [c [Hc Happ]]; [lia | simpl in *; lia|].
      exists c. split.
      * simpl substring. simpl in Hc.
        destruct s as [|y s]; [simpl in Hlen; lia|]. simpl in *. exact Hc.
      * simpl in *. rewrite Nat.sub_0_r in *. simpl. f_equal. exact Happ.
  - destruct (IH a w Hw) as [c [Hc Happ]]; [simpl in Hlen; lia|].
    exists c. split; [exact Hc|].
    replace (S a + w - 1)%nat with (S (a + w - 1)) by lia.
    simpl. f_equal. exact Happ.
Qed.

Lemma contig_fold (s : string) (w : nat) (m : nat) :
  (1 <= w)%nat ->
  forall a, (1 <= a)%nat -> (a + w - 1 + m <= String.length s)%nat ->
    fold_left
      (fun acc kmer =>
         x <- acc ;; c <- Py.str_last kmer ;; Ok (x ++ String c "")%string)
      (map (fun r => substring r w s) (seq a m))
      (Ok (substring 0 (a + w - 1) s))
    = Ok (substring 0 (a + w - 1 + m) s).
Proof.
  intros Hw. induction m as [|m IH]; intros a Ha Hlen.
  - simpl. now rewrite Nat.add_0_r.
  - cbn [seq map fold_left bind].
    destruct (window_last_char s a w Hw) as [c [Hc Happ]]; [lia|].
    rewrite Hc. cbn [bind]. rewrite Happ.
    replace (a + w)%nat with (S a + w - 1)%nat by lia.
    rewrite IH by lia. f_equal. f_equal. lia.
Qed.

(** The contig of the chain of the windows of a string is the string. *)
Lemma contig_of_windows (s : string) (w m : nat) :
  (1 <= w)%nat -> (w + m = String.length s)%nat ->
  contig_of_path (windows w (S m) s) = Ok s.
Proof.
  intros Hw Hlen. unfold contig_of_path, windows, extend_seq.
  change (seq 0 (S m)) with (0%nat :: seq 1 m). cbn [map].
  rewrite list_slice_tail. cbn [tl].
  change ("" ++ substring 0 w s)%string with (substring 0 w s).
  pose proof (contig_fold s w m Hw 1 (le_n 1)) as H.
  replace (1 + w - 1)%nat with w in H by lia.
  rewrite H by lia. rewrite Hlen. now rewrite substring_all.
Qed.

(** ** Sources and sinks of an acyclic graph *)

Lemma predecessors_successors (g : DiGraph) (u v : string) :
  In u (predecessors g v) <-> In v (successors g u).
Proof.
  unfold predecessors, successors. rewrite !in_map_iff. split.
  - intros [e [<- He]]. apply filter_In in He. destruct He as [He Hd].
    apply String.eqb_eq in Hd. exists e. split; [exact Hd|].
    apply filter_In. split; [exact He | apply String.eqb_refl].
  - intros [e [<- He]]. apply filter_In in He. destruct He as [He Hs].
    apply String.eqb_eq in Hs. exists e. split; [exact Hs|].
    apply filter_In. split; [exact He | apply String.eqb_refl].
Qed.

Lemma repeated_node (l : list string) :
  ~ NoDup l -> exists x l1 l2 l3, l = l1 ++ x :: l2 ++ x :: l3.
Proof.
  induction l as [|a l IH]; intros H.
  - exfalso. apply H. constructor.
  - destruct (in_dec string_dec a l) as [Hin|Hnin].
    + apply in_split in Hin. destruct Hin as [l2 [l3 ->]].
      exists a, [], l2, l3. reflexivity.
    + destruct IH as [x [l1 [l2 [l3 ->]]]].
      * intros Hnd. apply H. now constructor.
      * exists x, (a :: l1), l2, l3. reflexivity.
Qed.

Lemma is_path_walk (g : DiGraph) (l : list string) :
  forall u v l3, is_path g (u :: l ++ v :: l3) -> walk g u v.
Proof.
  induction l as [|a l IH]; intros u v l3 [Hs Hp].
  - apply (walk_step g u v v); [exact Hs | constructor].
  - apply (walk_step g u a v); [exact Hs|]. exact (IH a v l3 Hp).
Qed.

(** A path that repeats a node goes round a cycle. *)
Lemma is_path_repeat_cycle (g : DiGraph) (l : list string) :
  is_path g l -> ~ NoDup l -> exists n c, In c (successors g n) /\ walk g c n.
Proof.
  intros Hp Hnd. destruct (repeated_node l Hnd) as [x [l1 [l2 [l3 ->]]]].
  apply is_path_suffix in Hp. destruct l2 as [|c l2].
  - destruct Hp as [Hs _]. exists x, x. split; [exact Hs | constructor].
  - destruct Hp as [Hs Hp]. exists x, c. split; [exact Hs|].
    exact (is_path_walk g l2 c x l3 Hp).
Qed.

(** When every node has a predecessor, paths of any length lead into the
    graph; and out of it when every node has a successor. *)
Lemma backward_path (g : DiGraph) :
  well_formed g ->
  (forall n, In n (nodes g) -> predecessors g n <> []) ->
  forall n, In n (nodes g) ->
  forall k, exists h l,
    List.length l = k /\ is_path g (h :: l) /\ incl (h :: l) (nodes g).
Proof.
  intros Hwf Hpred n Hn k. induction k as [|k [h [l [Hlen [Hp Hincl]]]]].
  - exists n, []. split; [reflexivity|]. split; [exact I|].
    intros x [<-|[]]. exact Hn.
  - assert (Hh : In h (nodes g)) by (apply Hincl; now left).
    specialize (Hpred h Hh). destruct (predecessors g h) as [|p ps] eqn:E;
      [congruence|].
    assert (Hph : In p (predecessors g h)) by (rewrite E; now left).
    exists p, (h :: l). split; [simpl; now rewrite Hlen|]. split.
    + split; [now apply predecessors_successors | exact Hp].
    + intros x [<-|Hx]; [|now apply Hincl].
      apply mem_In. exact (predecessors_nodes g h p Hwf Hph).
Qed.

Lemma forward_path (g : DiGraph) :
  well_formed g ->
  (forall n, In n (nodes g) -> successors g n <> []) ->
  forall k n, In n (nodes g) ->
  exists l, List.length l = k /\ is_path g (n :: l) /\ incl (n :: l) (nodes g).
Proof.
  intros Hwf Hsucc k. induction k as [|k IH]; intros n Hn.
  - exists []. split; [reflexivity|]. split; [exact I|].
    intros x [<-|[]]. exact Hn.
  - pose proof (Hsucc n Hn) as Hne.
    destruct (successors g n) as [|c cs] eqn:E; [congruence|].
    assert (Hc : In c (successors g n)) by (rewrite E; now left).
    destruct (successors_nodes g n c Hwf Hc) as [_ Hcn].
    destruct (IH c Hcn) as [l [Hlen [Hp Hincl]]].
    exists (c :: l). split; [simpl; now rewrite Hlen|]. split.
    + split; assumption.
    + intros x [<-|Hx]; [exact Hn | now apply Hincl].
Qed.

Lemma long_path_cycle (g : DiGraph) (l : list string) :
  is_path g l -> incl l (nodes g) -> (List.length (nodes g) < List.length l)%nat ->
  exists n c, In c (successors g n) /\ walk g c n.
Proof.
  intros Hp Hincl Hlen. apply (is_path_repeat_cycle g l Hp).
  intros Hnd. pose proof (NoDup_incl_length Hnd Hincl). lia.
Qed.

Lemma filter_nil_none {A : Type} (f : A -> bool) (l : list A) :
  filter f l = [] -> forall x, In x l -> f x = false.
Proof.
  intros H x Hx. destruct (f x) eqn:E; [|reflexivity].
  assert (Hin : In x (filter f l)) by (apply filter_In; auto).
  rewrite H in Hin. destruct Hin.
Qed.

(** X16: a graph with a node and without cycle has a starting node and
    a sink node: [get_starting_nodes] and [get_sink_nodes] both return a
    non-empty list. *)
Theorem acyclic_graph_has_ends (g : DiGraph) :
  well_formed g -> nodes g <> [] -> is_directed_acyclic_graph g = true ->
  get_starting_nodes g <> [] /\ get_sink_nodes g <> [].
Proof.
  intros Hwf Hne Hdag.
  pose proof (proj1 (is_directed_acyclic_graph_walk g Hwf) Hdag) as Hacyclic.
  destruct (nodes g) as [|n0 ns] eqn:En; [congruence|].
  assert (Hn0 : In n0 (nodes g)) by (rewrite En; now left).
  split; intros Hnone.
  - destruct (backward_path g Hwf) with (n := n0) (k := List.length (nodes g))
      as [h [l [Hlen [Hp Hincl]]]]; [|exact Hn0|].
    + intros n Hn E. unfold get_starting_nodes in Hnone.
      pose proof (filter_nil_none _ _ Hnone n Hn) as Hf. cbv beta in Hf.
      rewrite E in Hf. discriminate.
    + destruct (long_path_cycle g (h :: l) Hp Hincl) as [n [c [Hc Hw]]];
        [simpl; lia|]. exact (Hacyclic n c Hc Hw).
  - destruct (forward_path g Hwf) with (n := n0) (k := List.length (nodes g))
      as [l [Hlen [Hp Hincl]]]; [|exact Hn0|].
    + intros n Hn E. unfold get_sink_nodes in Hnone.
      pose proof (filter_nil_none _ _ Hnone n Hn) as Hf. cbv beta in Hf.
      rewrite E in Hf. discriminate.
    + destruct (long_path_cycle g (n0 :: l) Hp Hincl) as [n [c [Hc Hw]]];
        [simpl; lia|]. exact (Hacyclic n c Hc Hw).
Qed.

Lemma acyclic_graph_has_ends_witness :
  get_starting_nodes diamond <> [] /\ get_sink_nodes diamond <> [].
Proof.
  apply (acyclic_graph_has_ends diamond).
  - apply well_formed_graph_of_edges.
  - discriminate.
  - reflexivity.
Defined.

(** ** The weight of a path *)

Lemma mem_same (p p' : list string) :
  (forall n, In n p <-> In n p') -> forall n, mem n p = mem n p'.
Proof.
  intros H n. destruct (mem n p) eqn:E.
  - symmetry. apply mem_In, H, mem_In, E.
  - symmetry. apply mem_false. intros Hin. apply mem_false in E. apply E, H, Hin.
Qed.

(** X17: [path_average_weight] depends on the set of the nodes of the
    path only, not on their order nor on repetitions: two paths over the
    same nodes get the same weight, or raise alike. *)
Theorem path_average_weight_of_node_set (g : DiGraph) (p p' : list string) :
  (forall n, In n p <-> In n p') ->
  path_average_weight g p = path_average_weight g p'.
Proof.
  intros H. unfold path_average_weight, subgraph_weights.
  rewrite (filter_ext (fun e => mem (src e) p && mem (dst e) p)
                      (fun e => mem (src e) p' && mem (dst e) p')); [reflexivity|].
  intros e. now rewrite !(mem_same p p' H).
Qed.

Lemma path_average_weight_of_node_set_witness :
  path_average_weight chord_graph ["A"; "B"; "N"]
  = path_average_weight chord_graph ["N"; "A"; "B"; "A"].
Proof.
  apply (path_average_weight_of_node_set chord_graph ["A"; "B"; "N"]
           ["N"; "A"; "B"; "A"]).
  intros n. simpl. tauto.
Defined.

(** ** The whole run *)

Lemma windows_kmers_distinct (s : string) (k m : nat) :
  (1 <= k)%nat -> (m + k <= String.length s + 1)%nat ->
  NoDup (windows (k - 1) (S m) s) -> NoDup (windows k m s).
Proof.
  intros Hk Hlen Hnd. unfold windows in *.
  apply (NoDup_map_inv (fun t => substring 0 (k - 1) t)).
  rewrite map_map.
  rewrite seq_S, map_app in Hnd. apply NoDup_app_remove_r in Hnd.
  erewrite map_ext; [exact Hnd|].
  intros r. cbv beta. rewrite substring_substring by lia. f_equal. lia.
Qed.

(** The graph of a single read of which no two (k-1)-mers are equal is
    the chain of those (k-1)-mers. *)
Lemma build_graph_single_read (s : string) (k : nat) :
  (2 <= k <= String.length s)%nat ->
  NoDup (windows (k - 1) (String.length s + 2 - k) s) ->
  build_graph (build_kmer_dict [s] (Z.of_nat k))
  = mkDiGraph (windows (k - 1) (String.length s + 2 - k) s)
              (chain (windows (k - 1) (String.length s + 2 - k) s)).
Proof.
  intros Hk Hnd. set (m := (String.length s + 1 - k)%nat).
  replace (String.length s + 2 - k)%nat with (S m) in * by (unfold m; lia).
  unfold build_kmer_dict. cbn [fold_left].
  rewrite cut_kmer_windows by lia. fold m.
  rewrite count_kmers_fresh
    by (simpl; apply windows_kmers_distinct; [lia | unfold m; lia | exact Hnd]).
  simpl app. rewrite build_graph_graph_of_edges.
  assert (E : map kmer_edge (map (fun kmer => (kmer, 1)) (windows k m s))
              = chain (windows (k - 1) (S m) s)).
  { unfold windows. rewrite chain_map_seq, !map_map.
    apply map_ext_in. intros r Hr. apply in_seq in Hr.
    apply kmer_edge_window; unfold m in *; lia. }
  rewrite E. apply graph_of_edges_chain; [exact Hnd|].
  unfold windows. rewrite length_map, length_seq. unfold m. lia.
Qed.

Lemma all_kmers_none (reads : list string) (kmer_size : Z) :
  all_kmers reads kmer_size = [] -> build_kmer_dict reads kmer_size = [].
Proof.
  unfold all_kmers, build_kmer_dict.
  assert (G : forall d : kmer_dict,
             flat_map (fun read => cut_kmer read kmer_size) reads = [] ->
             fold_left (fun d read => fold_left count_kmer (cut_kmer read kmer_size) d)
                       reads d = d).
  { induction reads as [|r reads IH]; intros d H; simpl in *.
    - reflexivity.
    - apply app_eq_nil in H. destruct H as [Hr Hrs]. rewrite Hr. simpl. now apply IH. }
  apply G.
Qed.

Section WholeRun.

Variable randint : Z -> Z -> Z.
Variable pick : string -> list string -> string.

(** X18: for a single read of which no two (k-1)-mers are equal, with
    [2 <= k <= len], the run returns one contig, the read itself, with
    its length. *)
Theorem main_single_read (s : string) (k depth : nat) :
  (2 <= k <= String.length s)%nat ->
  NoDup (windows (k - 1) (String.length s + 2 - k) s) ->
  main randint pick (S depth) [s] (Z.of_nat k)
  = Ok [(s, Z.of_nat (String.length s))].
Proof.
  intros Hk Hnd. unfold main. rewrite build_graph_single_read by assumption.
  set (m := (String.length s + 1 - k)%nat).
  replace (String.length s + 2 - k)%nat with (S m) in * by (unfold m; lia).
  set (vs := windows (k - 1) (S m) s) in *.
  assert (Hvs : exists v0 v1 rest, vs = v0 :: v1 :: rest).
  { unfold vs, windows. assert (Hm : (1 <= m)%nat) by (unfold m; lia).
    destruct m as [|m']; [lia|].
    change (seq 0 (S (S m'))) with (0%nat :: 1%nat :: seq 2 m'). cbn [map]. eauto. }
  destruct Hvs as [v0 [v1 [rest E]]].
  rewrite simplify_bubbles_no_join
    by (intros n _; apply chain_predecessors_length; exact Hnd).
  rewrite solve_entry_tips_no_join;
    [| intros n _; apply chain_predecessors_length; exact Hnd
     | simpl; rewrite E; discriminate ].
  rewrite solve_out_tips_no_fork;
    [| intros n _; apply chain_successors_length; exact Hnd
     | simpl; rewrite E; discriminate ].
  rewrite (chain_starting_nodes vs Hnd v0 (v1 :: rest) E).
  rewrite (chain_sink_nodes vs Hnd v0 (v1 :: rest) E).
  unfold get_contigs. cbn [contigs_of_starts contigs_of_ends].
  rewrite (chain_has_path vs Hnd v0 v1 rest E). cbn [bind].
  rewrite (chain_all_simple_paths vs Hnd v0 v1 rest E). cbn [bind contigs_of_paths].
  assert (Hc : extend_seq "" vs = Ok s).
  { apply (contig_of_windows s (k - 1) m); unfold m; lia. }
  rewrite Hc. reflexivity.
Qed.

(** X19: when [cut_kmer] yields no k-mer at all over the reads (no read,
    or every read one character shorter than the k-mer size), the graph
    has no node and the run ends in [solve_entry_tips] with an
    [UnboundLocalError], whatever the recursion depth allowed. *)
Theorem main_without_kmers (reads : list string) (kmer_size : Z) (depth : nat) :
  all_kmers reads kmer_size = [] ->
  nodes (build_graph (build_kmer_dict reads kmer_size)) = []
  /\ main randint pick (S depth) reads kmer_size = Raise UnboundLocalError.
Proof.
  intros H. unfold main. rewrite all_kmers_none by exact H.
  split; reflexivity.
Qed.

End WholeRun.

Lemma main_single_read_witness :
  main (draw 0) first_pick 1 ["ACGTTGCA"] 4 = Ok [("ACGTTGCA", 8)].
Proof.
  apply (main_single_read (draw 0) first_pick "ACGTTGCA" 4 0).
  - simpl. lia.
  - vm_compute. repeat constructor; simpl; intuition discriminate.
Defined.

Lemma main_without_kmers_witness :
  all_kmers ["ACG"; "TTA"] 4 = []
  /\ nodes (build_graph (build_kmer_dict ["ACG"; "TTA"] 4)) = []
  /\ main (draw 0) first_pick 1 ["ACG"; "TTA"] 4 = Raise UnboundLocalError.
Proof.
  split; [reflexivity|].
  apply (main_without_kmers (draw 0) first_pick ["ACG"; "TTA"] 4 0). reflexivity.
Defined.
